(** * quickjs-emscripten: the top-level entry points of [ts/index.ts]

    The file embeds two parts of [ts/index.ts]:

    - [Deadline]: [shouldInterruptAfterDeadline], a pure function building
      an interrupt handler from a [Date | number];
    - [Process]: the module-level state ([singleton], [singletonPromise]),
      the promise heap and the microtask queue on which [getQuickJS],
      [getQuickJSSync], [newQuickJSWASMModule], [newQuickJSAsyncWASMModule],
      [newAsyncRuntime] and [newAsyncContext] run. *)

From Stdlib Require Import ZArith QArith Qround Lia String.
From stdpp Require Import base list.

(* ===================================================================== *)
(** * Deadlines and interrupt handlers *)
(* ===================================================================== *)

Module Deadline.

Local Open Scope Z_scope.

(** A JavaScript Number.  Finite doubles are rationals, and the relational
    operators on doubles are exact (no rounding is involved in [>]), so the
    finite case ranges over [Q]; both zeros are the rational [0]. *)
Inductive number : Type :=
| NaN
| Infinity (negative : bool)
| Finite (q : Q).

(** [a > b] on Numbers: false as soon as one side is [NaN]. *)
Definition number_gt (a b : number) : bool :=
  match a, b with
  | NaN, _ => false
  | _, NaN => false
  | Infinity true, _ => false
  | Infinity false, Infinity false => false
  | Infinity false, _ => true
  | Finite _, Infinity negative => negative
  | Finite x, Finite y => negb (Qle_bool x y)
  end.

(** A [Date] object holds a time value: an integral number of milliseconds
    since the epoch, or [NaN] for an invalid date. *)
Record Date : Type := { DateValue : option Z }.

Definition getTime (d : Date) : number :=
  match DateValue d with
  | Some t => Finite (inject_Z t)
  | None => NaN
  end.

(** [Date.now()]: the reading of the system clock, an integral number of
    milliseconds since the epoch.  The readings that can occur are the time
    values ([time_value] below); a fact stated for every integer holds for
    them in particular, and a fact that needs some reading to exist is
    stated with a time value. *)
Definition Date_now (clock : Z) : number := Finite (inject_Z clock).

(** The largest time value: 100,000,000 days after the epoch, in
    milliseconds. *)
Definition maxTimeValue : Z := 8640000000000000.

(** The time values: what [Date.now()] can return, and what a valid Date
    can hold. *)
Definition time_value (t : Z) : Prop := - maxTimeValue <= t <= maxTimeValue.

(** The parameter type [Date | number]. *)
Inductive DateOrNumber : Type :=
| OfDate (d : Date)
| OfNumber (n : number).

(** [typeof deadline === "number" ? deadline : deadline.getTime()] *)
Definition deadlineAsNumber (deadline : DateOrNumber) : number :=
  match deadline with
  | OfNumber n => n
  | OfDate d => getTime d
  end.

(** An interrupt handler, as far as this file is concerned, is polled with
    the clock reading that [Date.now()] yields during the poll. *)
Definition InterruptHandler : Type := Z -> bool.

Definition shouldInterruptAfterDeadline (deadline : DateOrNumber) : InterruptHandler :=
  let n := deadlineAsNumber deadline in
  fun clock => number_gt (Date_now clock) n.

(** ** Reading of the deadline, independent of the code *)

(** The instant [n] lies strictly before the clock reading. *)
Definition strictly_before (n : number) (clock : Z) : Prop :=
  match n with
  | NaN => False
  | Infinity negative => negative = true
  | Finite q => (q < inject_Z clock)%Q
  end.


(** The deadline handed over lies strictly before the clock reading, read
    off the argument itself: a number stands for itself, a valid Date for
    its time value, an invalid Date for no instant at all. *)
Definition deadline_before (deadline : DateOrNumber) (clock : Z) : Prop :=
  match deadline with
  | OfNumber n => strictly_before n clock
  | OfDate d =>
      match DateValue d with
      | Some t => t < clock
      | None => False
      end
  end.

(** The deadline handed over is passed by no time value: it is no instant
    ([NaN], an invalid Date), or [+Infinity], or not before the largest
    time value. *)
Definition beyond_every_reading (deadline : DateOrNumber) : Prop :=
  match deadline with
  | OfNumber NaN => True
  | OfNumber (Infinity negative) => negative = false
  | OfNumber (Finite q) => (inject_Z maxTimeValue <= q)%Q
  | OfDate d =>
      match DateValue d with
      | Some t => maxTimeValue <= t
      | None => True
      end
  end.

(** The deadline as the specification words it: an absolute time or a
    duration, the latter counted from the moment the handler is built. *)
Inductive SpecDeadline : Type :=
| AbsoluteTime (t : Z)
| Duration (ms : Z).

Definition spec_instant (created : Z) (d : SpecDeadline) : Z :=
  match d with
  | AbsoluteTime t => t
  | Duration ms => created + ms
  end.

Definition spec_handler (created : Z) (d : SpecDeadline) : InterruptHandler :=
  fun clock => spec_instant created d <? clock.

(** The only way to hand either form to the code: both are numbers. *)
Definition spec_argument (d : SpecDeadline) : DateOrNumber :=
  match d with
  | AbsoluteTime t => OfNumber (Finite (inject_Z t))
  | Duration ms => OfNumber (Finite (inject_Z ms))
  end.

(** ** The engine's poll loop *)

(** The outcome of evaluating a script that never finishes on its own:
    aborted at some poll, or still running when the fuel ran out. *)
Inductive EvalResult : Type :=
| Interrupted (poll : nat)
| Running.

(** Modelled from the spec: the engine's evaluation loop and
    [setInterruptHandler] live in the runtime and context classes, which are
    not in [ts/index.ts].  The specification says the installed callback is
    invoked periodically by the engine during script execution and that
    returning true aborts the running script with an [Interrupted] fault.
    An infinite loop never finishes on its own, so its evaluation is a
    sequence of polls; [clock k] is the clock reading at poll [k]. *)
Fixpoint evalInfiniteLoop (handler : InterruptHandler) (clock : nat -> Z)
    (poll fuel : nat) : EvalResult :=
  match fuel with
  | O => Running
  | S fuel' =>
      if handler (clock poll) then Interrupted poll
      else evalInfiniteLoop handler clock (S poll) fuel'
  end.

End Deadline.

(* ===================================================================== *)
(** * The process: module state, promises and the microtask queue *)
(* ===================================================================== *)

Module Process.

Local Open Scope nat_scope.
Local Open Scope string_scope.

(** ** Values *)

(** The two builds of the engine; [type_tag] is the string assigned to
    [wasmModule.type]. *)
Inductive Variant : Type := Sync | Async.

#[global] Instance Variant_eq_dec : EqDecision Variant.
Proof. solve_decision. Defined.

Definition type_tag (v : Variant) : string :=
  match v with
  | Sync => "sync"
  | Async => "async"
  end.

(** The object [wasmModuleLoader()] resolves to.  [instance] names the
    WebAssembly instance behind it; [type] is the property the factories
    assign ([None] while it is undefined). *)
Record EmscriptenModule : Type := {
  instance : nat;
  type : option string;
}.

Inductive FFI : Type :=
| QuickJSFFI (module : EmscriptenModule)
| QuickJSAsyncFFI (module : EmscriptenModule).

Inductive ModuleClass : Type := QuickJSWASMModule | QuickJSAsyncWASMModule.

(** An object built by [new QuickJSWASMModule(wasmModule, ffi)] or by
    [new QuickJSAsyncWASMModule(wasmModule, ffi)]: its class, the two
    constructor arguments, and the identity [new] gave it. *)
Record ModuleObject : Type := {
  identity : nat;
  class : ModuleClass;
  module : EmscriptenModule;
  ffi : FFI;
}.

(** [options?]: an opaque options object, or [None] when omitted. *)
Definition Options : Type := option nat.

(** Values that travel through promises.  [newRuntime] and [newContext] are
    methods of the module classes, defined outside [ts/index.ts]; what a
    call returns is kept as the receiver and the argument it was made
    with. *)
Inductive Value : Type :=
| VModule (m : ModuleObject)
| VRuntime (receiver : Value) (options : Options)
| VContext (receiver : Value) (options : Options).

Record JSError : Type := { message : string }.

(** ** Promises *)

Inductive Settlement : Type :=
| Fulfill (v : Value)
| Reject (e : JSError).

(** The continuations this file attaches to promises; each one settles the
    promise it names. *)
Inductive Reaction : Type :=
| ThenSetSingleton (derived : nat)
    (* .then((instance) => { singleton = instance; return instance }) *)
| AwaitInGetQuickJS (result : nat)
    (* return await singletonPromise *)
| AwaitInNewAsyncRuntime (options : Options) (result : nat)
    (* const module = await ...; return module.newRuntime(options) *)
| AwaitInNewAsyncContext (options : Options) (result : nat).
    (* const module = await ...; return module.newContext(options) *)

Inductive PromiseState : Type :=
| Pending (reactions : list Reaction)
| Settled (st : Settlement).

(** Which expression created a promise. *)
Inductive Origin : Type :=
| ByFactory (v : Variant)          (* a call of newQuickJS[Async]WASMModule *)
| ByThen                           (* newQuickJSWASMModule().then(...) *)
| ByGetQuickJS                     (* a call of getQuickJS *)
| ByNewAsyncRuntime (options : Options)
| ByNewAsyncContext (options : Options).

#[global] Instance Origin_eq_dec : EqDecision Origin.
Proof. solve_decision. Defined.

(** Where the body of a factory call is suspended. *)
Inductive Stage : Type :=
| AwaitingImports   (* await Promise.all([import(...), import(...), import(...)]) *)
| AwaitingLoader.   (* await wasmModuleLoader() *)

Record Promise : Type := {
  origin : Origin;
  stage : option Stage;
  state : PromiseState;
}.

(** A promise reaction job: the reaction, the promise it was attached to
    and the settlement of that promise. *)
Record Job : Type := {
  job_source : nat;
  job_reaction : Reaction;
  job_settlement : Settlement;
}.

(** ** State *)

Record State : Type := {
  singleton : option Value;            (* let singleton = undefined *)
  singletonPromise : option nat;       (* let singletonPromise = undefined *)
  heap : list Promise;                 (* promise [p] is [heap !! p] *)
  microtasks : list Job;               (* first in, first out *)
  modules_created : nat;               (* module objects built by [new] *)
}.

Definition initial : State :=
  {| singleton := None; singletonPromise := None; heap := [];
     microtasks := []; modules_created := 0 |}.

Definition set_singleton (v : Value) (s : State) : State :=
  {| singleton := Some v; singletonPromise := singletonPromise s;
     heap := heap s; microtasks := microtasks s;
     modules_created := modules_created s |}.

Definition set_singletonPromise (p : nat) (s : State) : State :=
  {| singleton := singleton s; singletonPromise := Some p;
     heap := heap s; microtasks := microtasks s;
     modules_created := modules_created s |}.

Definition set_heap (h : list Promise) (s : State) : State :=
  {| singleton := singleton s; singletonPromise := singletonPromise s;
     heap := h; microtasks := microtasks s;
     modules_created := modules_created s |}.

Definition set_microtasks (q : list Job) (s : State) : State :=
  {| singleton := singleton s; singletonPromise := singletonPromise s;
     heap := heap s; microtasks := q;
     modules_created := modules_created s |}.

Definition set_modules_created (n : nat) (s : State) : State :=
  {| singleton := singleton s; singletonPromise := singletonPromise s;
     heap := heap s; microtasks := microtasks s;
     modules_created := n |}.

(** ** Promise primitives *)

(** A new pending promise; its name is the next free index. *)
Definition allocPromise (o : Origin) (sg : option Stage) (s : State) : nat * State :=
  (length (heap s),
   set_heap (heap s ++ [{| origin := o; stage := sg; state := Pending [] |}]) s).

(** Attach a reaction to [p]: stored while [p] is pending, queued as a job
    at once when [p] is already settled. *)
Definition subscribe (p : nat) (r : Reaction) (s : State) : State :=
  match heap s !! p with
  | Some c =>
      match state c with
      | Pending rs =>
          set_heap (<[p := {| origin := origin c; stage := stage c;
                              state := Pending (rs ++ [r]) |}]> (heap s)) s
      | Settled st =>
          set_microtasks
            (microtasks s ++
               [{| job_source := p; job_reaction := r; job_settlement := st |}]) s
      end
  | None => s
  end.

(** Settle [p] if it is still pending, and queue its reactions in the order
    they were attached.  A settled promise never changes. *)
Definition settle (p : nat) (st : Settlement) (s : State) : State :=
  match heap s !! p with
  | Some c =>
      match state c with
      | Pending rs =>
          set_microtasks
            (microtasks s ++
               map (fun r => {| job_source := p; job_reaction := r;
                                job_settlement := st |}) rs)
            (set_heap (<[p := {| origin := origin c; stage := None;
                                 state := Settled st |}]> (heap s)) s)
      | Settled _ => s
      end
  | None => s
  end.

(** [p.then(reaction)] and [await p] inside an async function: a new
    promise [d], settled by the reaction once [p] is. *)
Definition chain (p : nat) (o : Origin) (k : nat -> Reaction) (s : State) : nat * State :=
  let '(d, s1) := allocPromise o None s in
  (d, subscribe p (k d) s1).

(** ** The functions of [ts/index.ts] *)

(** [newQuickJSWASMModule()], up to its first [await]: the call returns its
    promise, and the body waits for the three dynamic imports. *)
Definition newQuickJSWASMModule (s : State) : nat * State :=
  allocPromise (ByFactory Sync) (Some AwaitingImports) s.

(** [newQuickJSAsyncWASMModule()], up to its first [await]. *)
Definition newQuickJSAsyncWASMModule (s : State) : nat * State :=
  allocPromise (ByFactory Async) (Some AwaitingImports) s.

(** The tail of [newQuickJSWASMModule], after [await wasmModuleLoader()]:
    [wasmModule.type = "sync"; const ffi = new QuickJSFFI(wasmModule);
     return new QuickJSWASMModule(wasmModule, ffi)]. *)
Definition buildQuickJSWASMModule (wasmModule : EmscriptenModule) (id : nat) : ModuleObject :=
  let wasmModule := {| instance := instance wasmModule; type := Some "sync" |} in
  let ffi := QuickJSFFI wasmModule in
  {| identity := id; class := QuickJSWASMModule; module := wasmModule; ffi := ffi |}.

(** The tail of [newQuickJSAsyncWASMModule]:
    [wasmModule.type = "async"; const ffi = new QuickJSAsyncFFI(wasmModule);
     return new QuickJSAsyncWASMModule(wasmModule, ffi)]. *)
Definition buildQuickJSAsyncWASMModule (wasmModule : EmscriptenModule) (id : nat) : ModuleObject :=
  let wasmModule := {| instance := instance wasmModule; type := Some "async" |} in
  let ffi := QuickJSAsyncFFI wasmModule in
  {| identity := id; class := QuickJSAsyncWASMModule; module := wasmModule; ffi := ffi |}.

Definition buildModule (v : Variant) : EmscriptenModule -> nat -> ModuleObject :=
  match v with
  | Sync => buildQuickJSWASMModule
  | Async => buildQuickJSAsyncWASMModule
  end.

(** [getQuickJS()]:
    [singletonPromise ??= newQuickJSWASMModule().then(...)]
    [return await singletonPromise]. *)
Definition getQuickJS (s : State) : nat * State :=
  let '(p, s1) :=
    match singletonPromise s with
    | Some p => (p, s)
    | None =>
        let '(p0, s0) := newQuickJSWASMModule s in
        let '(p1, s1) := chain p0 ByThen ThenSetSingleton s0 in
        (p1, set_singletonPromise p1 s1)
    end in
  chain p ByGetQuickJS AwaitInGetQuickJS s1.

Definition not_initialized : JSError :=
  {| message := "QuickJS not initialized. Await getQuickJS() at least once." |}.

(** [getQuickJSSync()]: every [Value] is an object, hence truthy, so
    [!singleton] holds exactly when [singleton] is undefined. *)
Definition getQuickJSSync (s : State) : Value + JSError :=
  match singleton s with
  | None => inr not_initialized
  | Some v => inl v
  end.

(** [newAsyncRuntime(options)]. *)
Definition newAsyncRuntime (options : Options) (s : State) : nat * State :=
  let '(p0, s0) := newQuickJSAsyncWASMModule s in
  chain p0 (ByNewAsyncRuntime options) (AwaitInNewAsyncRuntime options) s0.

(** [newAsyncContext(options)]. *)
Definition newAsyncContext (options : Options) (s : State) : nat * State :=
  let '(p0, s0) := newQuickJSAsyncWASMModule s in
  chain p0 (ByNewAsyncContext options) (AwaitInNewAsyncContext options) s0.

(** ** Running a reaction job *)

(** The job of one reaction, given the settlement of the promise it was
    attached to.  None of the values is a thenable (the module, runtime and
    context objects have no [then] method), so returning one from a callback
    or from an async function fulfils the promise in the same job. *)
Definition runReaction (r : Reaction) (st : Settlement) (s : State) : State :=
  match r, st with
  | ThenSetSingleton derived, Fulfill instance_ =>
      (* singleton = instance; return instance *)
      settle derived (Fulfill instance_) (set_singleton instance_ s)
  | ThenSetSingleton derived, Reject e =>
      (* no rejection handler: the derived promise rejects alike *)
      settle derived (Reject e) s
  | AwaitInGetQuickJS result, st =>
      settle result st s
  | AwaitInNewAsyncRuntime options result, Fulfill module_ =>
      settle result (Fulfill (VRuntime module_ options)) s
  | AwaitInNewAsyncRuntime options result, Reject e =>
      settle result (Reject e) s
  | AwaitInNewAsyncContext options result, Fulfill module_ =>
      settle result (Fulfill (VContext module_ options)) s
  | AwaitInNewAsyncContext options result, Reject e =>
      settle result (Reject e) s
  end.

(** ** What the environment does to a suspended factory body *)

(** The imports and the loader are outside [ts/index.ts]: when and how they
    settle is up to the environment.  A step below is the job in which the
    body resumes after its [await]; it may come at any point of a run. *)

(** The dynamic imports settle: on failure the call rejects, otherwise the
    body calls [wasmModuleLoader()] and waits again. *)
Definition resumeAfterImports (p : nat) (failure : option JSError) (s : State) : option State :=
  match heap s !! p with
  | Some c =>
      match origin c, stage c, state c with
      | ByFactory v, Some AwaitingImports, Pending rs =>
          match failure with
          | Some e => Some (settle p (Reject e) s)
          | None =>
              Some (set_heap (<[p := {| origin := ByFactory v;
                                        stage := Some AwaitingLoader;
                                        state := Pending rs |}]> (heap s)) s)
          end
      | _, _, _ => None
      end
  | None => None
  end.

(** The loader settles: on failure the call rejects, otherwise the body
    tags the wasm module, builds the module object and returns it. *)
Definition resumeAfterLoader (p : nat) (outcome : EmscriptenModule + JSError) (s : State) : option State :=
  match heap s !! p with
  | Some c =>
      match origin c, stage c, state c with
      | ByFactory v, Some AwaitingLoader, Pending _ =>
          match outcome with
          | inr e => Some (settle p (Reject e) s)
          | inl wasmModule =>
              let m := buildModule v wasmModule (modules_created s) in
              Some (settle p (Fulfill (VModule m))
                      (set_modules_created (S (modules_created s)) s))
          end
      | _, _, _ => None
      end
  | None => None
  end.

(** ** Steps of the process *)

Inductive Event : Type :=
| CallGetQuickJS
| CallGetQuickJSSync
| CallNewQuickJSWASMModule
| CallNewQuickJSAsyncWASMModule
| CallNewAsyncRuntime (options : Options)
| CallNewAsyncContext (options : Options)
| ImportsSettle (p : nat) (failure : option JSError)
| LoaderSettles (p : nat) (outcome : EmscriptenModule + JSError)
| RunMicrotask.

(** What a step hands back to its caller. *)
Inductive Completion : Type :=
| ReturnsPromise (p : nat)
| Returns (v : Value)
| Throws (e : JSError)
| Done.

(** One step; [None] when the event cannot happen in [s] (no such
    suspended body, or an empty microtask queue). *)
Definition step (s : State) (ev : Event) : option (State * Completion) :=
  match ev with
  | CallGetQuickJS =>
      let '(p, s') := getQuickJS s in Some (s', ReturnsPromise p)
  | CallGetQuickJSSync =>
      match getQuickJSSync s with
      | inl v => Some (s, Returns v)
      | inr e => Some (s, Throws e)
      end
  | CallNewQuickJSWASMModule =>
      let '(p, s') := newQuickJSWASMModule s in Some (s', ReturnsPromise p)
  | CallNewQuickJSAsyncWASMModule =>
      let '(p, s') := newQuickJSAsyncWASMModule s in Some (s', ReturnsPromise p)
  | CallNewAsyncRuntime options =>
      let '(p, s') := newAsyncRuntime options s in Some (s', ReturnsPromise p)
  | CallNewAsyncContext options =>
      let '(p, s') := newAsyncContext options s in Some (s', ReturnsPromise p)
  | ImportsSettle p failure =>
      s' ← resumeAfterImports p failure s; Some (s', Done)
  | LoaderSettles p outcome =>
      s' ← resumeAfterLoader p outcome s; Some (s', Done)
  | RunMicrotask =>
      match microtasks s with
      | [] => None
      | j :: q =>
          Some (runReaction (job_reaction j) (job_settlement j) (set_microtasks q s),
                Done)
      end
  end.

(** A run: the events in order, and the state they lead to. *)
Fixpoint exec (s : State) (evs : list Event) : option State :=
  match evs with
  | [] => Some s
  | ev :: evs' =>
      match step s ev with
      | Some (s', _) => exec s' evs'
      | None => None
      end
  end.

Definition reachable_from (s s' : State) : Prop :=
  exists evs, exec s evs = Some s'.

Definition reachable (s : State) : Prop := reachable_from initial s.

(** Run the microtask queue for at most [n] jobs. *)
Fixpoint drain (n : nat) (s : State) : State :=
  match n with
  | O => s
  | S n' =>
      match step s RunMicrotask with
      | Some (s', _) => drain n' s'
      | None => s
      end
  end.

(** ** Observations *)

Definition state_of (s : State) (p : nat) : option PromiseState :=
  state <$> heap s !! p.

Definition origin_of (s : State) (p : nat) : option Origin :=
  origin <$> heap s !! p.

(** Calls of a factory made so far: each call creates exactly one promise
    of origin [ByFactory v]. *)
Definition factory_calls (v : Variant) (s : State) : nat :=
  sum_list_with (fun c => if decide (origin c = ByFactory v) then 1 else 0) (heap s).

(** The body of the factory call that returned [p] is suspended at [sg]. *)
Definition suspended_at (s : State) (p : nat) (v : Variant) (sg : Stage) : Prop :=
  exists c rs,
    heap s !! p = Some c /\ origin c = ByFactory v /\ stage c = Some sg
    /\ state c = Pending rs.

(** The value the initializer cached in [singletonPromise] resolved to, if
    it has resolved. *)
Definition initializer_resolved (s : State) : option Value :=
  match singletonPromise s with
  | Some p1 =>
      match state_of s p1 with
      | Some (Settled (Fulfill v)) => Some v
      | _ => None
      end
  | None => None
  end.

(** Direct calls of [newQuickJSWASMModule] among the events of a run. *)
Definition direct_sync_call (ev : Event) : nat :=
  match ev with
  | CallNewQuickJSWASMModule => 1
  | _ => 0
  end.

Definition direct_sync_calls (evs : list Event) : nat :=
  sum_list_with direct_sync_call evs.

(** Factory calls an event makes, read off the code of each function. *)
Definition factory_calls_by (v : Variant) (s : State) (ev : Event) : nat :=
  match ev, v with
  | CallGetQuickJS, Sync =>
      match singletonPromise s with
      | Some _ => 0
      | None => 1
      end
  | CallNewQuickJSWASMModule, Sync => 1
  | CallNewQuickJSAsyncWASMModule, Async => 1
  | CallNewAsyncRuntime _, Async => 1
  | CallNewAsyncContext _, Async => 1
  | _, _ => 0
  end.

Definition cached (s : State) : nat :=
  match singletonPromise s with
  | Some _ => 1
  | None => 0
  end.

(** The module a runtime or context was created in. *)
Definition receiver_of (v : Value) : option Value :=
  match v with
  | VRuntime receiver _ => Some receiver
  | VContext receiver _ => Some receiver
  | VModule _ => None
  end.

Definition is_factory (o : Origin) : Prop :=
  match o with
  | ByFactory _ => True
  | _ => False
  end.

Definition is_result (o : Origin) : Prop :=
  match o with
  | ByGetQuickJS | ByNewAsyncRuntime _ | ByNewAsyncContext _ => True
  | _ => False
  end.


(** What a settlement of the awaited promise becomes in the awaiting one. *)
Definition carried (wrap : Value -> Value) (st : Settlement) : Settlement :=
  match st with
  | Fulfill w => Fulfill (wrap w)
  | Reject e => Reject e
  end.

(** Two states with the same promises; they may differ in [singleton] and
    in the microtask queue. *)
Definition same_heap (s s1 : State) : Prop :=
  heap s1 = heap s /\ singletonPromise s1 = singletonPromise s
  /\ modules_created s1 = modules_created s.

(** ** Continuations in flight *)

(** Reaction [r] is stored on the pending promise [src]. *)
Definition in_heap (s : State) (src : nat) (r : Reaction) : Prop :=
  exists rs, state_of s src = Some (Pending rs) /\ r ∈ rs.

(** Reaction [r] of [src] is queued as a job carrying settlement [st]. *)
Definition in_queue (s : State) (src : nat) (r : Reaction) (st : Settlement) : Prop :=
  {| job_source := src; job_reaction := r; job_settlement := st |} ∈ microtasks s.

Definition has_cont (s : State) (src : nat) (r : Reaction) : Prop :=
  in_heap s src r \/ exists st, in_queue s src r st.

(** The promise a reaction settles. *)
Definition target (r : Reaction) : nat :=
  match r with
  | ThenSetSingleton derived => derived
  | AwaitInGetQuickJS result => result
  | AwaitInNewAsyncRuntime _ result => result
  | AwaitInNewAsyncContext _ result => result
  end.

(** Weighted count of the reactions in flight, stored or queued. *)
Definition cell_weight (w : Reaction -> nat) (c : Promise) : nat :=
  match state c with
  | Pending rs => sum_list_with w rs
  | Settled _ => 0
  end.

Definition weight (w : Reaction -> nat) (s : State) : nat :=
  sum_list_with (cell_weight w) (heap s)
  + sum_list_with (fun j => w (job_reaction j)) (microtasks s).

Definition then_weight (r : Reaction) : nat :=
  match r with
  | ThenSetSingleton _ => 1
  | _ => 0
  end.

(** Number of [.then] callbacks of [getQuickJS] still to run. *)
Definition thens (s : State) : nat := weight then_weight s.

(** Number of reaction jobs still to run before the queue can be empty. *)
Definition pending_work (s : State) : nat := weight (fun _ => 1) s.

(** ** Invariants of reachable states *)

(** Each continuation hangs where the code put it. *)
Definition cont_ok (s : State) (src : nat) (r : Reaction) : Prop :=
  match r with
  | ThenSetSingleton d =>
      d = S src /\ singletonPromise s = Some d
      /\ origin_of s src = Some (ByFactory Sync)
  | AwaitInGetQuickJS res =>
      singletonPromise s = Some src /\ origin_of s res = Some ByGetQuickJS
  | AwaitInNewAsyncRuntime o res =>
      res = S src /\ origin_of s src = Some (ByFactory Async)
      /\ origin_of s res = Some (ByNewAsyncRuntime o)
  | AwaitInNewAsyncContext o res =>
      res = S src /\ origin_of s src = Some (ByFactory Async)
      /\ origin_of s res = Some (ByNewAsyncContext o)
  end.

Definition conts_ok (s : State) : Prop :=
  (forall src r, in_heap s src r -> cont_ok s src r)
  /\ (forall src r st, in_queue s src r st ->
        cont_ok s src r /\ state_of s src = Some (Settled st)).

(** The state of the cached promise and [singleton] go together. *)
Definition singleton_ok (s : State) : Prop :=
  match singletonPromise s with
  | None =>
      singleton s = None
      /\ forall p, origin_of s p <> Some ByThen /\ origin_of s p <> Some ByGetQuickJS
  | Some p1 =>
      (forall p, origin_of s p = Some ByThen -> p = p1)
      /\ origin_of s p1 = Some ByThen
      /\ match state_of s p1 with
         | Some (Pending _) => singleton s = None /\ thens s = 1
         | Some (Settled (Reject _)) => singleton s = None /\ thens s = 0
         | Some (Settled (Fulfill v)) => singleton s = Some v /\ thens s = 0
         | None => False
         end
  end.

(** What a fulfilled factory promise holds. *)
Definition factory_ok (s : State) : Prop :=
  forall p v val,
    origin_of s p = Some (ByFactory v) ->
    state_of s p = Some (Settled (Fulfill val)) ->
    exists wasmModule id,
      val = VModule (buildModule v wasmModule id) /\ id < modules_created s
      /\ forall q v' wasmModule',
           origin_of s q = Some (ByFactory v') ->
           state_of s q
             = Some (Settled (Fulfill (VModule (buildModule v' wasmModule' id)))) ->
           q = p.

(** The promise cached in [singletonPromise] and the promises returned by
    [getQuickJS], [newAsyncRuntime] and [newAsyncContext] follow the promise
    they were chained on. *)
Definition follows (s : State) (res src : nat) (k : Reaction)
    (wrap : Value -> Value) : Prop :=
  match state_of s res with
  | Some (Pending _) => has_cont s src k
  | Some (Settled (Fulfill v)) =>
      exists w, state_of s src = Some (Settled (Fulfill w)) /\ v = wrap w
  | Some (Settled (Reject e)) => state_of s src = Some (Settled (Reject e))
  | None => False
  end.

Definition result_ok_at (s : State) (res : nat) : Prop :=
  match origin_of s res with
  | Some ByThen =>
      exists p0, res = S p0 /\ origin_of s p0 = Some (ByFactory Sync)
        /\ follows s res p0 (ThenSetSingleton res) (fun w => w)
  | Some ByGetQuickJS =>
      exists p1, singletonPromise s = Some p1
        /\ follows s res p1 (AwaitInGetQuickJS res) (fun w => w)
  | Some (ByNewAsyncRuntime o) =>
      exists p0, res = S p0 /\ origin_of s p0 = Some (ByFactory Async)
        /\ follows s res p0 (AwaitInNewAsyncRuntime o res) (fun w => VRuntime w o)
  | Some (ByNewAsyncContext o) =>
      exists p0, res = S p0 /\ origin_of s p0 = Some (ByFactory Async)
        /\ follows s res p0 (AwaitInNewAsyncContext o res) (fun w => VContext w o)
  | _ => True
  end.

Definition results_ok (s : State) : Prop := forall res, result_ok_at s res.

Record invariant (s : State) : Prop := {
  inv_conts : conts_ok s;
  inv_singleton : singleton_ok s;
  inv_factory : factory_ok s;
  inv_results : results_ok s;
}.

(** ** Naming the entry points and their results *)

(** The factory of each variant. *)
Definition factory (v : Variant) : State -> nat * State :=
  match v with
  | Sync => newQuickJSWASMModule
  | Async => newQuickJSAsyncWASMModule
  end.


(** The state a run from [initial] ends in. *)
Definition run_of (evs : list Event) : State := default initial (exec initial evs).

(** ** Sample runs *)

Definition wasm0 : EmscriptenModule := {| instance := 7; type := None |}.
Definition wasm1 : EmscriptenModule := {| instance := 8; type := None |}.
Definition boom : JSError := {| message := "instantiation failed" |}.

(** [getQuickJS()] is called, the module is built, the queue is drained. *)
Definition ready_run : list Event :=
  [CallGetQuickJS; ImportsSettle 0 None; LoaderSettles 0 (inl wasm0);
   RunMicrotask; RunMicrotask].

(** [getQuickJS()] is called and the imports fail. *)
Definition failed_run : list Event :=
  [CallGetQuickJS; ImportsSettle 0 (Some boom); RunMicrotask; RunMicrotask].

(** [getQuickJS()], [newAsyncRuntime()] and [newAsyncContext()] are called
    and all three modules are built. *)
Definition mixed_run : list Event :=
  [CallGetQuickJS; CallNewAsyncRuntime (Some 1); CallNewAsyncContext None;
   ImportsSettle 0 None; ImportsSettle 3 None; ImportsSettle 5 None;
   LoaderSettles 5 (inl wasm1); LoaderSettles 0 (inl wasm0);
   LoaderSettles 3 (inl wasm1);
   RunMicrotask; RunMicrotask; RunMicrotask; RunMicrotask].

(** What every step keeps of the past. *)
Definition extends (s s' : State) : Prop :=
  (forall p o, origin_of s p = Some o -> origin_of s' p = Some o)
  /\ (forall p st, state_of s p = Some (Settled st) ->
        state_of s' p = Some (Settled st))
  /\ (forall p, singletonPromise s = Some p -> singletonPromise s' = Some p)
  /\ modules_created s <= modules_created s'.

(** ** Further counts, events and sample runs *)

(** Calls of [getQuickJS] among the events of a run. *)
Definition getQuickJS_call (ev : Event) : nat :=
  match ev with
  | CallGetQuickJS => 1
  | _ => 0
  end.

Definition getQuickJS_calls (evs : list Event) : nat :=
  sum_list_with getQuickJS_call evs.

(** Calls of the three functions that load the asyncified build. *)
Definition async_call (ev : Event) : nat :=
  match ev with
  | CallNewQuickJSAsyncWASMModule => 1
  | CallNewAsyncRuntime _ => 1
  | CallNewAsyncContext _ => 1
  | _ => 0
  end.

Definition async_calls (evs : list Event) : nat :=
  sum_list_with async_call evs.

(** The [await] a factory body is suspended at fails with [e]. *)
Definition failure_event (p : nat) (sg : Stage) (e : JSError) : Event :=
  match sg with
  | AwaitingImports => ImportsSettle p (Some e)
  | AwaitingLoader => LoaderSettles p (inr e)
  end.

(** Modules are built directly and through [newAsyncRuntime], and
    [getQuickJSSync] is tried; [getQuickJS] is never called. *)
Definition direct_run : list Event :=
  [CallNewQuickJSWASMModule; ImportsSettle 0 None; LoaderSettles 0 (inl wasm0);
   CallNewAsyncRuntime None; CallGetQuickJSSync].

(** [newQuickJSAsyncWASMModule()] has just been called. *)
Definition loading_run : list Event := [CallNewQuickJSAsyncWASMModule].

End Process.

(* ===================================================================== *)
(** * Facts about deadlines *)
(* ===================================================================== *)

Module DeadlineFacts.
Import Deadline.

Local Open Scope Z_scope.

Lemma number_gt_now_spec (clock : Z) (n : number) :
  number_gt (Date_now clock) n = true <-> strictly_before n clock.
Proof.
  destruct n as [|negative|q]; simpl.
  - split; [discriminate | tauto].
  - tauto.
  - rewrite negb_true_iff. split.
    + intros Hle. apply Qnot_le_lt. intros Hq.
      apply Qle_bool_iff in Hq. congruence.
    + intros Hlt. destruct (Qle_bool (inject_Z clock) q) eqn:E; [|reflexivity].
      apply Qle_bool_iff in E. exfalso. exact (Qlt_not_le _ _ Hlt E).
Qed.

Lemma strictly_before_mono (n : number) (t t' : Z) :
  t <= t' -> strictly_before n t -> strictly_before n t'.
Proof.
  intros Hle. destruct n as [|negative|q]; simpl; try tauto.
  intros Hq. eapply Qlt_le_trans; [exact Hq|].
  rewrite <- Zle_Qle. exact Hle.
Qed.


Lemma handler_true_iff (deadline : DateOrNumber) (clock : Z) :
  shouldInterruptAfterDeadline deadline clock = true
  <-> strictly_before (deadlineAsNumber deadline) clock.
Proof. unfold shouldInterruptAfterDeadline. apply number_gt_now_spec. Qed.

Lemma number_gt_integers (a b : Z) :
  number_gt (Date_now a) (Finite (inject_Z b)) = (b <? a).
Proof.
  simpl. destruct (Z.ltb_spec b a) as [Hlt|Hle].
  - destruct (Qle_bool (inject_Z a) (inject_Z b)) eqn:E; [|reflexivity].
    apply Qle_bool_iff in E. rewrite <- Zle_Qle in E. lia.
  - assert (Qle_bool (inject_Z a) (inject_Z b) = true) as ->; [|reflexivity].
    apply Qle_bool_iff. rewrite <- Zle_Qle. exact Hle.
Qed.

Lemma deadline_before_spec (deadline : DateOrNumber) (clock : Z) :
  deadline_before deadline clock
  <-> strictly_before (deadlineAsNumber deadline) clock.
Proof.
  destruct deadline as [[[t|]]|n]; simpl; try tauto.
  unfold getTime; simpl. rewrite <- Zlt_Qlt. tauto.
Qed.

(** C3 (amended): the handler built from a [Date | number] argument answers
    each poll by comparing the clock reading with the argument as an
    absolute instant.  Built from a number [n], it answers [true] exactly
    when [n] itself lies strictly before the reading ([NaN] and [+Infinity]
    never do, [-Infinity] always does).  Built from a Date, it answers
    [true] exactly when the Date is valid and its time value is less than
    the reading.  For an absolute time [t] in milliseconds since the epoch
    it is the handler the specification describes, whenever it was built.
    A number is never read as a duration. *)
Theorem handler_compares_now_with_deadline (n : number) (d : Date)
    (t created clock : Z) :
  (shouldInterruptAfterDeadline (OfNumber n) clock = true
     <-> strictly_before n clock)
  /\ shouldInterruptAfterDeadline (OfDate d) clock
       = match DateValue d with
         | Some v => v <? clock
         | None => false
         end
  /\ shouldInterruptAfterDeadline (spec_argument (AbsoluteTime t)) clock
       = spec_handler created (AbsoluteTime t) clock.
Proof.
  split; [|split].
  - apply (handler_true_iff (OfNumber n)).
  - destruct d as [[v|]]; [|reflexivity]. apply number_gt_integers.
  - apply number_gt_integers.
Qed.

(** C3 as stated fails for durations: a handler built at clock reading 5000
    from the duration 1000 has its deadline at 6000 and must not fire at
    5000, but the code compares 5000 with 1000 and fires. *)
Lemma duration_is_not_a_deadline :
  ~ (forall (created : Z) (d : SpecDeadline) (clock : Z),
        created <= clock ->
        shouldInterruptAfterDeadline (spec_argument d) clock
          = spec_handler created d clock).
Proof.
  intros H. specialize (H 5000 (Duration 1000) 5000 (Z.le_refl _)).
  vm_compute in H. discriminate H.
Qed.

(** C4: when the deadline handed over (the number itself, or the time
    value of the Date) lies strictly before the current clock reading, the
    handler answers [true] at that reading and at every later one; the
    engine's poll loop over an infinite script, given any fuel at all,
    therefore stops at its first poll with [Interrupted]. *)
Theorem past_deadline_interrupts (deadline : DateOrNumber) (now : Z)
    (clock : nat -> Z) (fuel : nat) :
  deadline_before deadline now ->
  (forall k, now <= clock k) ->
  (forall t, now <= t -> shouldInterruptAfterDeadline deadline t = true)
  /\ evalInfiniteLoop (shouldInterruptAfterDeadline deadline) clock 0 (S fuel)
     = Interrupted 0.
Proof.
  intros Hpast Hclock.
  assert (Hall : forall t, now <= t -> shouldInterruptAfterDeadline deadline t = true).
  { intros t Ht. destruct deadline as [[[v|]]|n]; simpl in Hpast.
    - change (number_gt (Date_now t) (Finite (inject_Z v)) = true).
      rewrite number_gt_integers. apply Z.ltb_lt. lia.
    - contradiction.
    - apply (handler_true_iff (OfNumber n)).
      exact (strictly_before_mono n now t Ht Hpast). }
  split; [exact Hall|].
  simpl. rewrite (Hall (clock O) (Hclock O)). reflexivity.
Qed.

Lemma past_deadline_interrupts_witness :
  deadline_before (OfDate {| DateValue := Some (-5) |}) (-3)
  /\ (forall t, -3 <= t ->
        shouldInterruptAfterDeadline (OfDate {| DateValue := Some (-5) |}) t = true)
  /\ evalInfiniteLoop (shouldInterruptAfterDeadline (OfDate {| DateValue := Some (-5) |}))
       (fun k => -3 + Z.of_nat k) 0 3 = Interrupted 0.
Proof.
  split; [reflexivity|].
  apply (past_deadline_interrupts (OfDate {| DateValue := Some (-5) |}) (-3)
           (fun k => -3 + Z.of_nat k) 2).
  - reflexivity.
  - intros k. lia.
Defined.



(** C9: a Date and the number its [getTime()] returns build handlers that
    answer every poll alike. *)
Theorem date_and_number_agree (d : Date) (clock : Z) :
  shouldInterruptAfterDeadline (OfDate d) clock
    = shouldInterruptAfterDeadline (OfNumber (getTime d)) clock.
Proof. reflexivity. Qed.

(** ** More about the handler *)

(** For a valid Date with time value [d], and for the number [d], the
    handler is the integer test [d < Date.now()]: the first reading that
    interrupts is [d + 1]. *)
Theorem integer_deadline_is_integer_comparison (d clock : Z) :
  shouldInterruptAfterDeadline (OfDate {| DateValue := Some d |}) clock = (d <? clock)
  /\ shouldInterruptAfterDeadline (OfNumber (Finite (inject_Z d))) clock = (d <? clock).
Proof. split; apply number_gt_integers. Qed.

(** Once a handler has answered [true] at some clock reading, it answers
    [true] at every reading that is not earlier. *)
Theorem handler_latches (deadline : DateOrNumber) (t t' : Z) :
  shouldInterruptAfterDeadline deadline t = true -> t <= t' ->
  shouldInterruptAfterDeadline deadline t' = true.
Proof.
  intros Ht Hle. apply handler_true_iff. apply handler_true_iff in Ht.
  exact (strictly_before_mono _ _ _ Hle Ht).
Qed.

Lemma handler_latches_witness :
  shouldInterruptAfterDeadline (OfNumber (Finite (3 # 2))) 2 = true
  /\ 2 <= 10
  /\ shouldInterruptAfterDeadline (OfNumber (Finite (3 # 2))) 10 = true.
Proof.
  split; [reflexivity|]. split; [lia|].
  apply (handler_latches (OfNumber (Finite (3 # 2))) 2 10); [reflexivity|lia].
Defined.



(** A handler never interrupts, at any clock reading that [Date.now()]
    can return, exactly when the deadline handed over is the number [NaN]
    or [+Infinity], a number not below the largest time value, an invalid
    Date, or a Date holding the largest time value.  Every other deadline
    is passed at some time value: [-Infinity] and the numbers and Dates
    below the largest time value. *)
Theorem never_fires_iff (deadline : DateOrNumber) :
  (forall clock, time_value clock ->
     shouldInterruptAfterDeadline deadline clock = false)
  <-> beyond_every_reading deadline.
Proof.
  assert (Hmax : time_value maxTimeValue) by (unfold time_value, maxTimeValue; lia).
  assert (Hzero : time_value 0) by (unfold time_value, maxTimeValue; lia).
  split.
  - intros Hnever. destruct deadline as [[[t|]]|[|[|]|q]]; simpl; auto.
    + specialize (Hnever _ Hmax).
      change (number_gt (Date_now maxTimeValue) (Finite (inject_Z t)) = false) in Hnever.
      rewrite number_gt_integers in Hnever.
      apply Z.ltb_ge in Hnever. exact Hnever.
    + specialize (Hnever _ Hzero). discriminate.
    + apply Qnot_lt_le. intros Hlt.
      specialize (Hnever _ Hmax).
      assert (shouldInterruptAfterDeadline (OfNumber (Finite q)) maxTimeValue = true)
        as Htrue by (apply handler_true_iff; exact Hlt).
      congruence.
  - intros Hbeyond clock [_ Hclock]. apply not_true_is_false. intros Htrue.
    apply handler_true_iff, deadline_before_spec in Htrue.
    destruct deadline as [[[t|]]|[|[|]|q]]; simpl in *; try tauto; try congruence.
    + lia.
    + apply (Qlt_irrefl q). eapply Qlt_le_trans; [exact Htrue|].
      eapply Qle_trans; [|exact Hbeyond]. rewrite <- Zle_Qle. exact Hclock.
Qed.

Lemma never_fires_iff_witness :
  (forall clock, time_value clock ->
     shouldInterruptAfterDeadline (OfNumber (Finite (inject_Z 10000000000000000))) clock
       = false)
  /\ ~ (forall clock, time_value clock ->
          shouldInterruptAfterDeadline (OfDate {| DateValue := Some 1000 |}) clock
            = false).
Proof.
  split.
  - apply (proj2 (never_fires_iff (OfNumber (Finite (inject_Z 10000000000000000))))).
    vm_compute. discriminate.
  - intros Hnever.
    apply (proj1 (never_fires_iff (OfDate {| DateValue := Some 1000 |}))) in Hnever.
    vm_compute in Hnever. apply Hnever. reflexivity.
Defined.

End DeadlineFacts.

(* ===================================================================== *)
(** * Facts about the process *)
(* ===================================================================== *)

Module ProcessFacts.
Import Process.

Local Open Scope nat_scope.

(* naive_solver clears hypotheses it has already used up *)
#[local] Set Warnings "-clear-no-such-hyp".

#[local] Arguments subscribe : simpl never.
#[local] Arguments settle : simpl never.
#[local] Arguments allocPromise : simpl never.
#[local] Arguments chain : simpl never.

(** ** Weights, and what each promise primitive changes *)

Section Primitives.
Implicit Types (s : State) (p q : nat) (c : Promise) (r : Reaction) (st : Settlement).

Lemma sum_list_with_insert {A} (f : A -> nat) (l : list A) (i : nat) (x c : A) :
  l !! i = Some c ->
  sum_list_with f (<[i:=x]> l) + f c = sum_list_with f l + f x.
Proof.
  revert i. induction l as [|a l IH]; intros [|i] Hi; simplify_eq/=; [lia|].
  specialize (IH i Hi). lia.
Qed.

Lemma sum_list_with_jobs (w : Reaction -> nat) p st (rs : list Reaction) :
  sum_list_with (fun j => w (job_reaction j))
    (map (fun r => {| job_source := p; job_reaction := r; job_settlement := st |}) rs)
  = sum_list_with w rs.
Proof. induction rs as [|r rs IH]; simpl; [reflexivity|]. by rewrite IH. Qed.

Lemma weight_alloc w o sg s : weight w (allocPromise o sg s).2 = weight w s.
Proof.
  unfold weight, allocPromise; simpl. rewrite sum_list_with_app. simpl.
  lia.
Qed.

Lemma weight_subscribe w p r s :
  is_Some (heap s !! p) -> weight w (subscribe p r s) = weight w s + w r.
Proof.
  intros [c Hc]. unfold subscribe. rewrite Hc.
  destruct (state c) as [rs|st] eqn:Hst; unfold weight; simpl.
  - pose proof (sum_list_with_insert (cell_weight w) (heap s) p
        {| origin := origin c; stage := stage c; state := Pending (rs ++ [r]) |} c Hc) as H.
    unfold cell_weight in *. simpl in H. rewrite Hst in H.
    rewrite sum_list_with_app in H. simpl in H. lia.
  - rewrite sum_list_with_app. simpl. lia.
Qed.

Lemma weight_settle w p st s : weight w (settle p st s) = weight w s.
Proof.
  unfold settle. destruct (heap s !! p) as [c|] eqn:Hc; [|reflexivity].
  destruct (state c) as [rs|st'] eqn:Hst; [|reflexivity].
  unfold weight; simpl.
  pose proof (sum_list_with_insert (cell_weight w) (heap s) p
        {| origin := origin c; stage := None; state := Settled st |} c Hc) as H.
  unfold cell_weight in *. simpl in H. rewrite Hst in H.
  rewrite sum_list_with_app, sum_list_with_jobs. lia.
Qed.


(** *** Observations after each primitive *)

Lemma origin_of_fresh s q : length (heap s) <= q -> origin_of s q = None.
Proof. intros H. unfold origin_of. by rewrite lookup_ge_None_2. Qed.

Lemma state_of_fresh s q : length (heap s) <= q -> state_of s q = None.
Proof. intros H. unfold state_of. by rewrite lookup_ge_None_2. Qed.

Lemma origin_of_lt s q o : origin_of s q = Some o -> q < length (heap s).
Proof.
  unfold origin_of. intros H. apply fmap_Some in H as (c & Hc & _).
  by apply lookup_lt_Some in Hc.
Qed.

Lemma state_of_lt s q x : state_of s q = Some x -> q < length (heap s).
Proof.
  unfold state_of. intros H. apply fmap_Some in H as (c & Hc & _).
  by apply lookup_lt_Some in Hc.
Qed.

Lemma origin_state_some s q o : origin_of s q = Some o -> is_Some (state_of s q).
Proof.
  unfold origin_of, state_of. intros H. apply fmap_Some in H as (c & Hc & _).
  rewrite Hc. by eexists.
Qed.

Lemma state_origin_some s q x : state_of s q = Some x -> is_Some (origin_of s q).
Proof.
  unfold origin_of, state_of. intros H. apply fmap_Some in H as (c & Hc & _).
  rewrite Hc. by eexists.
Qed.

Lemma origin_of_alloc o sg s q :
  origin_of (allocPromise o sg s).2 q
  = if decide (q = length (heap s)) then Some o else origin_of s q.
Proof.
  unfold origin_of, allocPromise; simpl. case_decide as Hq.
  - subst q. by rewrite lookup_app_r, Nat.sub_diag by lia.
  - destruct (decide (q < length (heap s))).
    + by rewrite lookup_app_l.
    + rewrite !lookup_ge_None_2; [done|lia|rewrite length_app; simpl; lia].
Qed.

Lemma state_of_alloc o sg s q :
  state_of (allocPromise o sg s).2 q
  = if decide (q = length (heap s)) then Some (Pending []) else state_of s q.
Proof.
  unfold state_of, allocPromise; simpl. case_decide as Hq.
  - subst q. by rewrite lookup_app_r, Nat.sub_diag by lia.
  - destruct (decide (q < length (heap s))).
    + by rewrite lookup_app_l.
    + rewrite !lookup_ge_None_2; [done|lia|rewrite length_app; simpl; lia].
Qed.

Lemma length_alloc o sg s : length (heap (allocPromise o sg s).2) = S (length (heap s)).
Proof. unfold allocPromise; simpl. rewrite length_app. simpl. lia. Qed.

Lemma origin_of_insert s p c c' q :
  heap s !! p = Some c -> origin c' = origin c ->
  origin_of (set_heap (<[p:=c']> (heap s)) s) q = origin_of s q.
Proof.
  intros Hc Ho. unfold origin_of; simpl. destruct (decide (p = q)) as [->|Hne].
  - rewrite list_lookup_insert_eq by (by eapply lookup_lt_Some). rewrite Hc. simpl. by f_equal.
  - by rewrite list_lookup_insert_ne.
Qed.

Lemma state_of_insert s p c c' q :
  heap s !! p = Some c ->
  state_of (set_heap (<[p:=c']> (heap s)) s) q
  = if decide (q = p) then Some (state c') else state_of s q.
Proof.
  intros Hc. unfold state_of; simpl. case_decide as Hq.
  - subst q. by rewrite list_lookup_insert_eq by (by eapply lookup_lt_Some).
  - by rewrite list_lookup_insert_ne.
Qed.

Lemma length_insert_heap s p c' : length (heap (set_heap (<[p:=c']> (heap s)) s)) = length (heap s).
Proof. simpl. apply length_insert. Qed.

Lemma state_of_cell s p x :
  state_of s p = Some x -> exists c, heap s !! p = Some c /\ state c = x.
Proof. unfold state_of. intros H. apply fmap_Some in H as (c & Hc & ->). eauto. Qed.

Lemma subscribe_pending p r s rs :
  state_of s p = Some (Pending rs) ->
  exists c, heap s !! p = Some c /\ state c = Pending rs /\
  subscribe p r s
  = set_heap (<[p := {| origin := origin c; stage := stage c;
                        state := Pending (rs ++ [r]) |}]> (heap s)) s.
Proof.
  intros H. apply state_of_cell in H as (c & Hc & Hst). exists c.
  split; [done|]. split; [done|]. unfold subscribe. by rewrite Hc, Hst.
Qed.

Lemma subscribe_settled p r s st :
  state_of s p = Some (Settled st) ->
  subscribe p r s
  = set_microtasks
      (microtasks s ++ [{| job_source := p; job_reaction := r; job_settlement := st |}]) s.
Proof.
  intros H. apply state_of_cell in H as (c & Hc & Hst).
  unfold subscribe. by rewrite Hc, Hst.
Qed.

Lemma settle_pending p st s rs :
  state_of s p = Some (Pending rs) ->
  exists c, heap s !! p = Some c /\ state c = Pending rs /\
  settle p st s
  = set_microtasks
      (microtasks s ++
         map (fun r => {| job_source := p; job_reaction := r; job_settlement := st |}) rs)
      (set_heap (<[p := {| origin := origin c; stage := None;
                           state := Settled st |}]> (heap s)) s).
Proof.
  intros H. apply state_of_cell in H as (c & Hc & Hst). exists c.
  split; [done|]. split; [done|]. unfold settle. by rewrite Hc, Hst.
Qed.

Lemma settle_settled p st s st' :
  state_of s p = Some (Settled st') -> settle p st s = s.
Proof.
  intros H. apply state_of_cell in H as (c & Hc & Hst).
  unfold settle. by rewrite Hc, Hst.
Qed.

Lemma settle_none p st s : state_of s p = None -> settle p st s = s.
Proof.
  unfold state_of, settle. destruct (heap s !! p); [discriminate|done].
Qed.

Lemma origin_of_subscribe p r s q : origin_of (subscribe p r s) q = origin_of s q.
Proof.
  destruct (state_of s p) as [[rs|st]|] eqn:Hp.
  - destruct (subscribe_pending p r s rs Hp) as (c & Hc & _ & ->).
    by apply origin_of_insert with c.
  - by rewrite (subscribe_settled p r s st Hp).
  - unfold subscribe, state_of in *. by destruct (heap s !! p).
Qed.

Lemma origin_of_settle p st s q : origin_of (settle p st s) q = origin_of s q.
Proof.
  destruct (state_of s p) as [[rs|st']|] eqn:Hp.
  - destruct (settle_pending p st s rs Hp) as (c & Hc & _ & ->).
    change (origin_of (set_microtasks ?q ?s) ?x) with (origin_of s x).
    by apply origin_of_insert with c.
  - by rewrite (settle_settled p st s st' Hp).
  - by rewrite settle_none.
Qed.

Lemma state_of_subscribe p r s q :
  state_of (subscribe p r s) q
  = match state_of s p with
    | Some (Pending rs) =>
        if decide (q = p) then Some (Pending (rs ++ [r])) else state_of s q
    | _ => state_of s q
    end.
Proof.
  destruct (state_of s p) as [[rs|st]|] eqn:Hp.
  - destruct (subscribe_pending p r s rs Hp) as (c & Hc & _ & ->).
    by rewrite (state_of_insert s p c _ q Hc).
  - by rewrite (subscribe_settled p r s st Hp).
  - unfold subscribe, state_of in *. by destruct (heap s !! p).
Qed.

Lemma state_of_settle p st s q :
  state_of (settle p st s) q
  = match state_of s p with
    | Some (Pending rs) =>
        if decide (q = p) then Some (Settled st) else state_of s q
    | _ => state_of s q
    end.
Proof.
  destruct (state_of s p) as [[rs|st']|] eqn:Hp.
  - destruct (settle_pending p st s rs Hp) as (c & Hc & _ & ->).
    change (state_of (set_microtasks ?q ?s) ?x) with (state_of s x).
    by rewrite (state_of_insert s p c _ q Hc).
  - by rewrite (settle_settled p st s st' Hp).
  - by rewrite settle_none.
Qed.

Lemma microtasks_subscribe p r s :
  microtasks (subscribe p r s)
  = match state_of s p with
    | Some (Settled st) =>
        microtasks s ++ [{| job_source := p; job_reaction := r; job_settlement := st |}]
    | _ => microtasks s
    end.
Proof.
  destruct (state_of s p) as [[rs|st]|] eqn:Hp.
  - by destruct (subscribe_pending p r s rs Hp) as (c & Hc & _ & ->).
  - by rewrite (subscribe_settled p r s st Hp).
  - unfold subscribe, state_of in *. by destruct (heap s !! p).
Qed.

Lemma microtasks_settle p st s :
  microtasks (settle p st s)
  = match state_of s p with
    | Some (Pending rs) =>
        microtasks s ++
          map (fun r => {| job_source := p; job_reaction := r; job_settlement := st |}) rs
    | _ => microtasks s
    end.
Proof.
  destruct (state_of s p) as [[rs|st']|] eqn:Hp.
  - by destruct (settle_pending p st s rs Hp) as (c & Hc & _ & ->).
  - by rewrite (settle_settled p st s st' Hp).
  - by rewrite settle_none.
Qed.

Lemma fields_subscribe p r s :
  singleton (subscribe p r s) = singleton s
  /\ singletonPromise (subscribe p r s) = singletonPromise s
  /\ modules_created (subscribe p r s) = modules_created s
  /\ length (heap (subscribe p r s)) = length (heap s).
Proof.
  unfold subscribe. destruct (heap s !! p) as [c|]; [|done].
  destruct (state c); simpl; rewrite ?length_insert; done.
Qed.

Lemma fields_settle p st s :
  singleton (settle p st s) = singleton s
  /\ singletonPromise (settle p st s) = singletonPromise s
  /\ modules_created (settle p st s) = modules_created s
  /\ length (heap (settle p st s)) = length (heap s).
Proof.
  unfold settle. destruct (heap s !! p) as [c|]; [|done].
  destruct (state c); simpl; rewrite ?length_insert; done.
Qed.

End Primitives.

(** ** What steps never undo *)

Section Extends.
Implicit Types (s : State) (p q : nat) (r : Reaction) (st : Settlement).

Lemma extends_refl s : extends s s.
Proof. repeat split; auto. Qed.

Lemma extends_trans s1 s2 s3 : extends s1 s2 -> extends s2 s3 -> extends s1 s3.
Proof.
  intros (A1 & B1 & C1 & D1) (A2 & B2 & C2 & D2). repeat split; eauto. lia.
Qed.

Lemma extends_alloc o sg s : extends s (allocPromise o sg s).2.
Proof.
  repeat split; try done.
  - intros p o' H. rewrite origin_of_alloc. case_decide; [|done].
    apply origin_of_lt in H. lia.
  - intros p st H. rewrite state_of_alloc. case_decide; [|done].
    apply state_of_lt in H. lia.
Qed.

Lemma extends_subscribe p r s : extends s (subscribe p r s).
Proof.
  destruct (fields_subscribe p r s) as (_ & E2 & E3 & _).
  split; [|split; [|split]].
  - intros q o H. by rewrite origin_of_subscribe.
  - intros q st H. rewrite state_of_subscribe.
    destruct (state_of s p) as [[rs|?]|] eqn:Hp; try done.
    case_decide; [congruence|done].
  - intros q. by rewrite E2.
  - by rewrite E3.
Qed.

Lemma extends_settle p st s : extends s (settle p st s).
Proof.
  destruct (fields_settle p st s) as (_ & E2 & E3 & _).
  split; [|split; [|split]].
  - intros q o H. by rewrite origin_of_settle.
  - intros q st' H. rewrite state_of_settle.
    destruct (state_of s p) as [[rs|?]|] eqn:Hp; try done.
    case_decide; [congruence|done].
  - intros q. by rewrite E2.
  - by rewrite E3.
Qed.

Lemma cont_ok_extends s s' src r : extends s s' -> cont_ok s src r -> cont_ok s' src r.
Proof.
  intros (A & B & C & D). destruct r; simpl; naive_solver.
Qed.

End Extends.

(** ** Where the continuations go *)

Section Continuations.
Implicit Types (s : State) (p q : nat) (r : Reaction) (st : Settlement).

Lemma in_heap_alloc o sg s src r :
  in_heap (allocPromise o sg s).2 src r <-> in_heap s src r.
Proof.
  unfold in_heap. setoid_rewrite state_of_alloc. split.
  - intros (rs & H & Hr). case_decide; [|eauto].
    simplify_eq. by apply elem_of_nil in Hr.
  - intros (rs & H & Hr). exists rs. split; [|done].
    case_decide; [|done]. apply state_of_lt in H. lia.
Qed.

Lemma in_heap_subscribe p r0 s src r :
  in_heap (subscribe p r0 s) src r
  <-> in_heap s src r \/ (src = p /\ r = r0 /\ exists rs, state_of s p = Some (Pending rs)).
Proof.
  unfold in_heap. setoid_rewrite state_of_subscribe.
  destruct (state_of s p) as [[rs0|st0]|] eqn:Hp.
  - split.
    + intros (rs & H & Hr). case_decide; [|eauto]. simplify_eq.
      apply elem_of_app in Hr as [Hr|Hr]; [eauto|].
      apply list_elem_of_singleton in Hr. subst. right. eauto.
    + intros [(rs & H & Hr)|(-> & -> & _)].
      * destruct (decide (src = p)) as [->|Hne].
        -- exists (rs0 ++ [r0]). rewrite ?decide_True by done.
           split; [done|]. apply elem_of_app. left. congruence.
        -- exists rs. by rewrite ?decide_False by done.
      * exists (rs0 ++ [r0]). rewrite ?decide_True by done.
        split; [done|]. apply elem_of_app. right. by apply list_elem_of_singleton.
  - split; [eauto|]. intros [H|(_ & _ & rs & ?)]; [done|discriminate].
  - split; [eauto|]. intros [H|(_ & _ & rs & ?)]; [done|discriminate].
Qed.

Lemma in_queue_subscribe p r0 s src r st :
  in_queue (subscribe p r0 s) src r st
  <-> in_queue s src r st \/ (src = p /\ r = r0 /\ state_of s p = Some (Settled st)).
Proof.
  unfold in_queue. rewrite microtasks_subscribe.
  destruct (state_of s p) as [[rs0|st0]|] eqn:Hp.
  - split; [eauto|]. intros [H|(_ & _ & ?)]; [done|discriminate].
  - rewrite elem_of_app, list_elem_of_singleton. split.
    + intros [H|H]; [eauto|]. simplify_eq. eauto.
    + intros [H|(-> & -> & H)]; [eauto|]. simplify_eq. eauto.
  - split; [eauto|]. intros [H|(_ & _ & ?)]; [done|discriminate].
Qed.

Lemma in_heap_settle p st s src r :
  in_heap (settle p st s) src r <-> in_heap s src r /\ src <> p.
Proof.
  unfold in_heap. setoid_rewrite state_of_settle.
  destruct (state_of s p) as [[rs0|st0]|] eqn:Hp.
  - split.
    + intros (rs & H & Hr). case_decide; [discriminate|]. eauto.
    + intros [(rs & H & Hr) Hne]. exists rs. by rewrite ?decide_False by done.
  - split; [|naive_solver]. intros (rs & H & Hr). split; [eauto|].
    intros ->. congruence.
  - split; [|naive_solver]. intros (rs & H & Hr). split; [eauto|].
    intros ->. congruence.
Qed.

Lemma in_queue_settle p st s src r st' :
  in_queue (settle p st s) src r st'
  <-> in_queue s src r st' \/ (src = p /\ st' = st /\ in_heap s p r).
Proof.
  unfold in_queue, in_heap. rewrite microtasks_settle.
  destruct (state_of s p) as [[rs0|st0]|] eqn:Hp.
  - rewrite elem_of_app. split.
    + intros [H|H]; [eauto|]. apply list_elem_of_fmap in H as (r' & Heq & Hr').
      simplify_eq. right. eauto.
    + intros [H|(-> & -> & rs & Hrs & Hr)]; [eauto|]. right. simplify_eq.
      apply list_elem_of_fmap. eauto.
  - split; [eauto|]. intros [H|(_ & _ & rs & ? & _)]; [done|discriminate].
  - split; [eauto|]. intros [H|(_ & _ & rs & ? & _)]; [done|discriminate].
Qed.

Lemma has_cont_alloc o sg s src r :
  has_cont (allocPromise o sg s).2 src r <-> has_cont s src r.
Proof. unfold has_cont. by rewrite in_heap_alloc. Qed.

Lemma has_cont_subscribe p r0 s src r :
  is_Some (state_of s p) ->
  has_cont (subscribe p r0 s) src r <-> has_cont s src r \/ (src = p /\ r = r0).
Proof.
  intros [x Hx]. unfold has_cont. rewrite in_heap_subscribe.
  setoid_rewrite in_queue_subscribe. destruct x as [rs|st0]; naive_solver.
Qed.

Lemma has_cont_settle p st s src r :
  has_cont (settle p st s) src r <-> has_cont s src r.
Proof.
  unfold has_cont. rewrite in_heap_settle. setoid_rewrite in_queue_settle.
  destruct (decide (src = p)); naive_solver.
Qed.

End Continuations.

(** ** Keeping an invariant across a change that does not concern it *)

Section Frames.
Implicit Types (s : State) (p q : nat) (r : Reaction) (st : Settlement).

Lemma conts_ok_frame s s' :
  conts_ok s -> extends s s' ->
  (forall src r, in_heap s' src r -> in_heap s src r \/ cont_ok s' src r) ->
  (forall src r st, in_queue s' src r st ->
     state_of s' src = Some (Settled st)
     /\ (has_cont s src r \/ cont_ok s' src r)) ->
  conts_ok s'.
Proof.
  intros [Hh Hq] Hext Hheap Hqueue. split.
  - intros src r Hin. destruct (Hheap src r Hin) as [Hold|Hnew]; [|done].
    eapply cont_ok_extends; eauto.
  - intros src r st Hin. destruct (Hqueue src r st Hin) as [Hst [Hold|Hnew]];
      split; try done.
    destruct Hold as [Hold|[st0 Hold]].
    + eapply cont_ok_extends; eauto.
    + eapply cont_ok_extends; [done|]. by apply (Hq src r st0).
Qed.

Lemma factory_ok_frame s s' :
  factory_ok s -> modules_created s <= modules_created s' ->
  (forall p v val, origin_of s' p = Some (ByFactory v) ->
     state_of s' p = Some (Settled (Fulfill val)) ->
     origin_of s p = Some (ByFactory v)
     /\ state_of s p = Some (Settled (Fulfill val))) ->
  factory_ok s'.
Proof.
  intros Hf Hle Hold p v val Ho Hs.
  destruct (Hold p v val Ho Hs) as [Ho' Hs'].
  destruct (Hf p v val Ho' Hs') as (wm & id & -> & Hid & Huniq).
  exists wm, id. split; [done|]. split; [lia|].
  intros q v' wm' Hqo Hqs. destruct (Hold q v' _ Hqo Hqs) as [Hqo' Hqs']. eauto.
Qed.

Lemma follows_frame s s' res src k wrap :
  extends s s' -> is_Some (state_of s' res) ->
  (forall st, state_of s' res = Some (Settled st) ->
     state_of s res = Some (Settled st)) ->
  (forall rs', state_of s' res = Some (Pending rs') ->
     has_cont s src k -> has_cont s' src k) ->
  (forall rs', state_of s' res = Some (Pending rs') ->
     exists rs, state_of s res = Some (Pending rs)) ->
  follows s res src k wrap -> follows s' res src k wrap.
Proof.
  intros (_ & Hst & _) [x Hx] Hsettled Hcont Hpend. unfold follows. rewrite Hx.
  destruct x as [rs'|st].
  - destruct (Hpend rs' Hx) as [rs ->]. by apply (Hcont rs').
  - rewrite (Hsettled st Hx). destruct st as [v|e]; [|by apply Hst].
    intros (w & Hw & ->). exists w. split; [by apply Hst|done].
Qed.

Lemma result_ok_at_frame s s' res :
  extends s s' -> is_Some (origin_of s res) -> is_Some (state_of s' res) ->
  (forall st, state_of s' res = Some (Settled st) ->
     state_of s res = Some (Settled st)) ->
  (forall rs' src k, state_of s' res = Some (Pending rs') -> target k = res ->
     has_cont s src k -> has_cont s' src k) ->
  (forall rs', state_of s' res = Some (Pending rs') ->
     exists rs, state_of s res = Some (Pending rs)) ->
  result_ok_at s res -> result_ok_at s' res.
Proof.
  intros Hext [o Ho] Hsome Hsettled Hcont Hpend. unfold result_ok_at.
  pose proof Hext as (Hor & _ & Hsp & _).
  rewrite Ho, (Hor res o Ho).
  destruct o as [v| | |opts|opts]; try done.
  - intros (p0 & Hp0 & Hop0 & Hf). exists p0. split; [done|]. split; [by apply Hor|].
    eapply follows_frame; eauto.
  - intros (p1 & Hp1 & Hf). exists p1. split; [by apply Hsp|].
    eapply follows_frame; eauto.
  - intros (p0 & Hp0 & Hop0 & Hf). exists p0. split; [done|]. split; [by apply Hor|].
    eapply follows_frame; eauto.
  - intros (p0 & Hp0 & Hop0 & Hf). exists p0. split; [done|]. split; [by apply Hor|].
    eapply follows_frame; eauto.
Qed.

Lemma singleton_ok_frame s s' :
  singleton_ok s -> extends s s' ->
  singleton s' = singleton s -> singletonPromise s' = singletonPromise s ->
  thens s' = thens s ->
  (forall p, origin_of s' p = Some ByThen -> origin_of s p = Some ByThen) ->
  (singletonPromise s = None ->
     forall p, origin_of s' p = Some ByGetQuickJS -> origin_of s p = Some ByGetQuickJS) ->
  (forall p1 rs, singletonPromise s = Some p1 -> state_of s p1 = Some (Pending rs) ->
     exists rs', state_of s' p1 = Some (Pending rs')) ->
  singleton_ok s'.
Proof.
  intros Hok (Hor & Hst & _ & _) Hsing Hsp Hthens Hthen Hget Hpend.
  unfold singleton_ok in *. rewrite Hsp, Hsing, Hthens.
  destruct (singletonPromise s) as [p1|] eqn:Hp1.
  - destruct Hok as (Huniq & Ho1 & Hcase). split; [|split].
    + intros p Hp. apply Huniq. by apply Hthen.
    + by apply Hor.
    + destruct (state_of s p1) as [[rs|[v|e]]|] eqn:Hs1; [| | |done].
      * destruct (Hpend p1 rs eq_refl Hs1) as [rs' ->]. done.
      * by rewrite (Hst _ _ Hs1).
      * by rewrite (Hst _ _ Hs1).
  - destruct Hok as [Hnone Hno]. split; [done|]. intros p. split.
    + intros Hp. apply Hthen in Hp. by destruct (Hno p).
    + intros Hp. apply (Hget eq_refl) in Hp. by destruct (Hno p).
Qed.

End Frames.

(** ** The invariant across factory calls and chained promises *)

Section Chaining.
Implicit Types (s : State) (p q : nat) (r : Reaction) (st : Settlement).

Lemma result_ok_at_trivial s res :
  (forall o, origin_of s res = Some o -> is_factory o) -> result_ok_at s res.
Proof.
  intros H. unfold result_ok_at. destruct (origin_of s res) as [o|]; [|done].
  specialize (H o eq_refl). destruct o; simpl in H; tauto.
Qed.

Lemma sum_list_with_zero {A} (f : A -> nat) (l : list A) :
  (forall x, x ∈ l -> f x = 0) -> sum_list_with f l = 0.
Proof.
  induction l as [|a l IH]; intros H; simpl; [done|].
  rewrite (H a), IH; [done| |]; intros; try apply H; by constructor.
Qed.

Lemma thens_zero s :
  (forall src r, has_cont s src r -> then_weight r = 0) -> thens s = 0.
Proof.
  intros H. unfold thens, weight.
  rewrite (sum_list_with_zero (cell_weight then_weight)),
          (sum_list_with_zero (fun j => then_weight (job_reaction j))); [done| |].
  - intros [src r st] Hj. simpl. apply (H src). right. by exists st.
  - intros c Hc. apply list_elem_of_lookup in Hc as [p Hp].
    unfold cell_weight. destruct (state c) as [rs|] eqn:Hst; [|done].
    apply sum_list_with_zero. intros r Hr. apply (H p). left. exists rs.
    split; [|done]. unfold state_of. by rewrite Hp; simpl; rewrite Hst.
Qed.

Lemma thens_none s :
  conts_ok s -> singletonPromise s = None -> thens s = 0.
Proof.
  intros [Hh Hq] Hnone. apply thens_zero. intros src r [Hin|[st Hin]].
  - specialize (Hh src r Hin). destruct r; simpl in *; [|done..].
    destruct Hh as (_ & ? & _); congruence.
  - destruct (Hq src r st Hin) as [Hok _]. destruct r; simpl in *; [|done..].
    destruct Hok as (_ & ? & _); congruence.
Qed.

Lemma queue_settled s src r st :
  conts_ok s -> in_queue s src r st -> state_of s src = Some (Settled st).
Proof. intros [_ Hq] Hin. by destruct (Hq src r st Hin). Qed.

(** *** A factory call *)

Lemma inv_alloc_factory v sg s :
  invariant s -> invariant (allocPromise (ByFactory v) sg s).2.
Proof.
  intros [Hc Hs Hf Hr]. pose proof (extends_alloc (ByFactory v) sg s) as Hext.
  split.
  - eapply conts_ok_frame; [done..| |].
    + intros src r Hin. left. by apply in_heap_alloc in Hin.
    + intros src r st Hin. split.
      * destruct Hext as (_ & Hst & _). apply Hst. by eapply queue_settled.
      * left. right. by exists st.
  - eapply singleton_ok_frame; [done..| | | |].
    + apply weight_alloc.
    + intros p. rewrite origin_of_alloc. by case_decide.
    + intros _ p. rewrite origin_of_alloc. by case_decide.
    + intros p1 rs _ Hp1. exists rs. rewrite state_of_alloc.
      case_decide; [|done]. apply state_of_lt in Hp1. lia.
  - eapply factory_ok_frame; [done..|].
    intros p v' val. rewrite origin_of_alloc, state_of_alloc. by case_decide.
  - intros res. destruct (decide (res = length (heap s))) as [->|Hne].
    + apply result_ok_at_trivial. intros o. rewrite origin_of_alloc, decide_True by done.
      intros [= <-]. simpl. tauto.
    + destruct (origin_of s res) as [o|] eqn:Ho.
      * eapply result_ok_at_frame; [done|by eexists| | | | |apply Hr].
        -- rewrite state_of_alloc, decide_False by done. by eapply origin_state_some.
        -- intros st. by rewrite state_of_alloc, decide_False.
        -- intros rs' src k _ _. by rewrite has_cont_alloc.
        -- intros rs'. rewrite state_of_alloc, decide_False by done. eauto.
      * apply result_ok_at_trivial. intros o. by rewrite origin_of_alloc, decide_False, Ho.
Qed.


(** *** Chaining a promise: [.then] and [await] *)

Lemma chain_fst p o k s : (chain p o k s).1 = length (heap s).
Proof. reflexivity. Qed.

Lemma chain_snd p o k s :
  (chain p o k s).2
  = subscribe p (k (length (heap s))) (allocPromise o None s).2.
Proof. reflexivity. Qed.

Lemma state_of_chain_new p o k s :
  is_Some (state_of s p) ->
  state_of (chain p o k s).2 (length (heap s)) = Some (Pending []).
Proof.
  intros [x Hx]. pose proof (state_of_lt _ _ _ Hx) as Hlt.
  rewrite chain_snd. rewrite state_of_subscribe, !state_of_alloc.
  rewrite (decide_False (P := p = _)) by lia. rewrite Hx.
  destruct x; [|by rewrite decide_True].
  rewrite (decide_False (P := _ = p)) by lia. by rewrite decide_True.
Qed.

Lemma state_of_chain_old p o k s q :
  is_Some (state_of s p) -> q <> length (heap s) ->
  state_of (chain p o k s).2 q
  = match state_of s p with
    | Some (Pending rs) =>
        if decide (q = p) then Some (Pending (rs ++ [k (length (heap s))]))
        else state_of s q
    | _ => state_of s q
    end.
Proof.
  intros [x Hx] Hq. pose proof (state_of_lt _ _ _ Hx) as Hlt.
  rewrite chain_snd. rewrite state_of_subscribe, !state_of_alloc.
  rewrite (decide_False (P := p = _)) by lia. rewrite Hx.
  by rewrite (decide_False (P := q = _)) by lia.
Qed.

Lemma origin_of_chain p o k s q :
  origin_of (chain p o k s).2 q
  = if decide (q = length (heap s)) then Some o else origin_of s q.
Proof. rewrite chain_snd. by rewrite origin_of_subscribe, origin_of_alloc. Qed.

Lemma extends_chain p o k s : extends s (chain p o k s).2.
Proof.
  rewrite chain_snd.
  eapply extends_trans; [apply extends_alloc|apply extends_subscribe].
Qed.

Lemma fields_chain p o k s :
  singleton (chain p o k s).2 = singleton s
  /\ singletonPromise (chain p o k s).2 = singletonPromise s
  /\ modules_created (chain p o k s).2 = modules_created s
  /\ length (heap (chain p o k s).2) = S (length (heap s)).
Proof.
  rewrite chain_snd.
  destruct (fields_subscribe p (k (length (heap s))) (allocPromise o None s).2)
    as (-> & -> & -> & ->).
  by rewrite length_alloc.
Qed.

Lemma weight_chain w p o k s :
  is_Some (state_of s p) ->
  weight w (chain p o k s).2 = weight w s + w (k (length (heap s))).
Proof.
  intros [x Hx]. pose proof (state_of_lt _ _ _ Hx) as Hlt.
  rewrite chain_snd. rewrite weight_subscribe, weight_alloc; [done|].
  apply lookup_lt_is_Some. rewrite length_alloc. lia.
Qed.

Lemma has_cont_chain p o k s src r :
  is_Some (state_of s p) ->
  has_cont (chain p o k s).2 src r
  <-> has_cont s src r \/ (src = p /\ r = k (length (heap s))).
Proof.
  intros [x Hx]. pose proof (state_of_lt _ _ _ Hx) as Hlt.
  rewrite chain_snd. rewrite has_cont_subscribe, has_cont_alloc; [done|].
  rewrite state_of_alloc, decide_False by lia. by eexists.
Qed.

Lemma in_heap_chain p o k s src r :
  in_heap (chain p o k s).2 src r ->
  in_heap s src r \/ (src = p /\ r = k (length (heap s))).
Proof.
  rewrite chain_snd. rewrite in_heap_subscribe, in_heap_alloc. naive_solver.
Qed.

Lemma in_queue_chain p o k s src r st :
  in_queue (chain p o k s).2 src r st ->
  in_queue s src r st
  \/ (src = p /\ r = k (length (heap s)) /\ state_of s p = Some (Settled st)).
Proof.
  rewrite chain_snd. rewrite in_queue_subscribe.
  intros [H|(-> & -> & H)]; [by left|right].
  split; [done|]. split; [done|]. rewrite state_of_alloc in H.
  by case_decide.
Qed.

Lemma inv_chain p o k s :
  invariant s -> is_Some (state_of s p) ->
  o <> ByThen -> (o = ByGetQuickJS -> is_Some (singletonPromise s)) ->
  then_weight (k (length (heap s))) = 0 ->
  cont_ok (chain p o k s).2 p (k (length (heap s))) ->
  result_ok_at (chain p o k s).2 (length (heap s)) ->
  invariant (chain p o k s).2.
Proof.
  intros [Hc Hs Hf Hr] Hp Ho Hget Hk Hcont Hres.
  pose proof (extends_chain p o k s) as Hext.
  destruct (fields_chain p o k s) as (E1 & E2 & E3 & E4).
  pose proof Hp as [x Hx]. pose proof (state_of_lt _ _ _ Hx) as Hlt.
  split.
  - eapply conts_ok_frame; [done..| |].
    + intros src r Hin. apply in_heap_chain in Hin as [Hin|[-> ->]]; eauto.
    + intros src r st Hin. apply in_queue_chain in Hin as [Hin|(-> & -> & Hin)].
      * split; [|left; right; by exists st].
        destruct Hext as (_ & Hst & _). apply Hst. by eapply queue_settled.
      * split; [|by right]. destruct Hext as (_ & Hst & _). by apply Hst.
  - eapply singleton_ok_frame; [done..| | | |].
    + unfold thens. rewrite weight_chain by done. fold (thens s). lia.
    + intros q. rewrite origin_of_chain. case_decide; [congruence|done].
    + intros Hnone q. rewrite origin_of_chain. case_decide; [|done].
      intros [= ->]. destruct (Hget eq_refl). congruence.
    + intros p1 rs _ Hp1. pose proof (state_of_lt _ _ _ Hp1).
      rewrite state_of_chain_old by (done || lia). rewrite Hx.
      destruct x as [rs0|]; [|eauto]. case_decide; eauto.
  - eapply factory_ok_frame; [done| lia |].
    intros q v val. rewrite origin_of_chain. case_decide as Hq.
    + subst q. rewrite state_of_chain_new by done. done.
    + rewrite state_of_chain_old by done. rewrite Hx.
      destruct x as [rs0|]; [|done]. by case_decide.
  - intros res. destruct (decide (res = length (heap s))) as [->|Hne]; [done|].
    destruct (origin_of s res) as [o'|] eqn:Ho'.
    + eapply result_ok_at_frame; [done|by eexists| | | | |apply Hr].
      * eapply origin_state_some. destruct Hext as (Hor & _). by apply Hor.
      * intros st. rewrite state_of_chain_old by done. rewrite Hx.
        destruct x as [rs0|]; [|done]. by case_decide.
      * intros rs' src k' _ _ Hk'. apply has_cont_chain; auto.
      * intros rs'. rewrite state_of_chain_old by done. rewrite Hx.
        destruct x as [rs0|]; [|eauto]. case_decide; [|eauto].
        subst. eauto.
    + apply result_ok_at_trivial. intros o'.
      by rewrite origin_of_chain, decide_False, Ho'.
Qed.

End Chaining.

(** ** The invariant across the calls of [ts/index.ts] *)

Section Calls.
Implicit Types (s : State) (p q : nat) (r : Reaction) (st : Settlement).

Lemma singletonPromise_state s p1 :
  singleton_ok s -> singletonPromise s = Some p1 ->
  origin_of s p1 = Some ByThen /\ is_Some (state_of s p1).
Proof.
  unfold singleton_ok. intros H Hp1. rewrite Hp1 in H.
  destruct H as (_ & Ho & _). split; [done|]. by eapply origin_state_some.
Qed.

Lemma inv_await_getQuickJS s p1 :
  invariant s -> singletonPromise s = Some p1 ->
  invariant (chain p1 ByGetQuickJS AwaitInGetQuickJS s).2.
Proof.
  intros Hinv Hp1.
  destruct (singletonPromise_state s p1 (inv_singleton s Hinv) Hp1) as [Ho Hs].
  destruct (fields_chain p1 ByGetQuickJS AwaitInGetQuickJS s) as (_ & E2 & _).
  apply inv_chain; try done.
  - unfold cont_ok. rewrite E2. split; [done|]. by rewrite origin_of_chain, decide_True.
  - unfold result_ok_at. rewrite origin_of_chain, decide_True by done.
    exists p1. split; [congruence|]. unfold follows.
    rewrite state_of_chain_new by done. apply has_cont_chain; auto.
Qed.

Lemma inv_await_runtime s p0 o :
  invariant s -> origin_of s p0 = Some (ByFactory Async) ->
  length (heap s) = S p0 ->
  invariant (chain p0 (ByNewAsyncRuntime o) (AwaitInNewAsyncRuntime o) s).2.
Proof.
  intros Hinv Ho Hlen. pose proof (origin_state_some _ _ _ Ho) as Hs.
  pose proof (extends_chain p0 (ByNewAsyncRuntime o) (AwaitInNewAsyncRuntime o) s)
    as (Hor & _).
  apply inv_chain; try done.
  - unfold cont_ok. split; [done|]. split; [by apply Hor|].
    by rewrite origin_of_chain, decide_True.
  - unfold result_ok_at. rewrite origin_of_chain, decide_True by done.
    exists p0. split; [done|]. split; [by apply Hor|]. unfold follows.
    rewrite state_of_chain_new by done. apply has_cont_chain; auto.
Qed.

Lemma inv_await_context s p0 o :
  invariant s -> origin_of s p0 = Some (ByFactory Async) ->
  length (heap s) = S p0 ->
  invariant (chain p0 (ByNewAsyncContext o) (AwaitInNewAsyncContext o) s).2.
Proof.
  intros Hinv Ho Hlen. pose proof (origin_state_some _ _ _ Ho) as Hs.
  pose proof (extends_chain p0 (ByNewAsyncContext o) (AwaitInNewAsyncContext o) s)
    as (Hor & _).
  apply inv_chain; try done.
  - unfold cont_ok. split; [done|]. split; [by apply Hor|].
    by rewrite origin_of_chain, decide_True.
  - unfold result_ok_at. rewrite origin_of_chain, decide_True by done.
    exists p0. split; [done|]. split; [by apply Hor|]. unfold follows.
    rewrite state_of_chain_new by done. apply has_cont_chain; auto.
Qed.

(** [singletonPromise ??= newQuickJSWASMModule().then(...)], once the
    factory call has returned [p0]. *)
Lemma inv_then s p0 :
  invariant s -> singletonPromise s = None ->
  origin_of s p0 = Some (ByFactory Sync) -> length (heap s) = S p0 ->
  invariant (set_singletonPromise (length (heap s))
               (chain p0 ByThen ThenSetSingleton s).2).
Proof.
  intros [Hc Hs Hf Hr] Hnone Ho Hlen.
  pose proof (origin_state_some _ _ _ Ho) as Hp.
  pose proof Hp as [x Hx]. pose proof (state_of_lt _ _ _ Hx) as Hlt.
  set (s1 := (chain p0 ByThen ThenSetSingleton s).2).
  set (s' := set_singletonPromise (length (heap s)) s1).
  destruct (fields_chain p0 ByThen ThenSetSingleton s) as (E1 & E2 & E3 & E4).
  assert (Hext : extends s s').
  { destruct (extends_chain p0 ByThen ThenSetSingleton s) as (A & B & _ & D).
    repeat split; try done. intros q. by rewrite Hnone. }
  assert (Hnew : cont_ok s' p0 (ThenSetSingleton (length (heap s)))).
  { simpl. split; [done|]. split; [done|]. destruct Hext as (Hor & _). by apply Hor. }
  split.
  - eapply conts_ok_frame; [done..| |].
    + intros src r Hin. change (in_heap s1 src r) in Hin.
      apply in_heap_chain in Hin as [Hin|[-> ->]]; eauto.
    + intros src r st Hin. change (in_queue s1 src r st) in Hin.
      apply in_queue_chain in Hin as [Hin|(-> & -> & Hin)].
      * split; [|left; right; by exists st].
        destruct Hext as (_ & Hst & _). apply Hst. by eapply queue_settled.
      * split; [|by right]. destruct Hext as (_ & Hst & _). by apply Hst.
  - unfold singleton_ok in *. rewrite Hnone in Hs. destruct Hs as [Hsing Hno].
    change (singletonPromise s') with (Some (length (heap s))).
    change (singleton s') with (singleton s1). change (thens s') with (thens s1).
    change (state_of s') with (state_of s1). change (origin_of s') with (origin_of s1).
    split; [|split].
    + intros q. unfold s1. rewrite origin_of_chain. case_decide; [done|].
      intros Hq. by destruct (Hno q).
    + unfold s1. by rewrite origin_of_chain, decide_True.
    + unfold s1. rewrite state_of_chain_new by done. rewrite E1. split; [done|].
      unfold thens. rewrite weight_chain by done. fold (thens s).
      rewrite (thens_none s) by done. done.
  - eapply factory_ok_frame;
      [done| change (modules_created s') with (modules_created s1); unfold s1; lia |].
    intros q v val. change (state_of s') with (state_of s1).
    change (origin_of s') with (origin_of s1). unfold s1.
    rewrite origin_of_chain. case_decide as Hq; [done|].
    rewrite state_of_chain_old by done. rewrite Hx.
    destruct x as [rs0|]; [|done]. by case_decide.
  - intros res. destruct (decide (res = length (heap s))) as [->|Hne].
    + unfold result_ok_at. change (origin_of s') with (origin_of s1).
      unfold s1 at 1. rewrite origin_of_chain, decide_True by done.
      exists p0. split; [done|]. split; [destruct Hext as (Hor & _); by apply Hor|].
      unfold follows. change (state_of s') with (state_of s1). unfold s1 at 1.
      rewrite state_of_chain_new by done. change (has_cont s1 p0 (ThenSetSingleton (length (heap s)))).
      apply has_cont_chain; auto.
    + destruct (origin_of s res) as [o'|] eqn:Ho'.
      * eapply result_ok_at_frame; [done|by eexists| | | | |apply Hr].
        -- eapply origin_state_some. destruct Hext as (Hor & _). by apply Hor.
        -- intros st. change (state_of s') with (state_of s1). unfold s1.
           rewrite state_of_chain_old by done. rewrite Hx.
           destruct x as [rs0|]; [|done]. by case_decide.
        -- intros rs' src k' _ _ Hk'. change (has_cont s1 src k').
           apply has_cont_chain; auto.
        -- intros rs'. change (state_of s') with (state_of s1). unfold s1.
           rewrite state_of_chain_old by done. rewrite Hx.
           destruct x as [rs0|]; [|eauto]. case_decide; [|eauto].
           subst. eauto.
      * apply result_ok_at_trivial. intros o'. change (origin_of s') with (origin_of s1).
        unfold s1. by rewrite origin_of_chain, decide_False, Ho'.
Qed.

Lemma getQuickJS_some s p1 :
  singletonPromise s = Some p1 ->
  getQuickJS s = chain p1 ByGetQuickJS AwaitInGetQuickJS s.
Proof. intros H. unfold getQuickJS. by rewrite H. Qed.

Lemma getQuickJS_none s :
  singletonPromise s = None ->
  getQuickJS s
  = let s0 := (newQuickJSWASMModule s).2 in
    let s1 := set_singletonPromise (length (heap s0))
                (chain (length (heap s)) ByThen ThenSetSingleton s0).2 in
    chain (length (heap s0)) ByGetQuickJS AwaitInGetQuickJS s1.
Proof. intros H. unfold getQuickJS. by rewrite H. Qed.

Lemma inv_getQuickJS s : invariant s -> invariant (getQuickJS s).2.
Proof.
  intros Hinv. destruct (singletonPromise s) as [p1|] eqn:Hp1.
  - rewrite (getQuickJS_some s p1 Hp1). by apply inv_await_getQuickJS.
  - rewrite (getQuickJS_none s Hp1). cbv zeta.
    apply inv_await_getQuickJS; [|done].
    apply inv_then.
    + by apply inv_alloc_factory.
    + done.
    + unfold newQuickJSWASMModule. by rewrite origin_of_alloc, decide_True.
    + unfold newQuickJSWASMModule. apply length_alloc.
Qed.

Lemma inv_newAsyncRuntime o s : invariant s -> invariant (newAsyncRuntime o s).2.
Proof.
  intros Hinv.
  change (newAsyncRuntime o s)
    with (chain (length (heap s)) (ByNewAsyncRuntime o) (AwaitInNewAsyncRuntime o)
            (newQuickJSAsyncWASMModule s).2).
  apply inv_await_runtime.
  - by apply inv_alloc_factory.
  - unfold newQuickJSAsyncWASMModule. by rewrite origin_of_alloc, decide_True.
  - unfold newQuickJSAsyncWASMModule. apply length_alloc.
Qed.

Lemma inv_newAsyncContext o s : invariant s -> invariant (newAsyncContext o s).2.
Proof.
  intros Hinv.
  change (newAsyncContext o s)
    with (chain (length (heap s)) (ByNewAsyncContext o) (AwaitInNewAsyncContext o)
            (newQuickJSAsyncWASMModule s).2).
  apply inv_await_context.
  - by apply inv_alloc_factory.
  - unfold newQuickJSAsyncWASMModule. by rewrite origin_of_alloc, decide_True.
  - unfold newQuickJSAsyncWASMModule. apply length_alloc.
Qed.

End Calls.

(** ** The invariant across imports and loader settling *)

Section Environment.
Implicit Types (s : State) (p q : nat) (r : Reaction) (st : Settlement).

Lemma extends_set_modules_created n s :
  modules_created s <= n -> extends s (set_modules_created n s).
Proof. intros H. repeat split; auto. Qed.

(** Settling a factory promise, whatever the settlement, keeps everything
    but [factory_ok], which depends on the settlement. *)
Lemma inv_settle_factory_gen s p v st n :
  invariant s -> modules_created s <= n ->
  origin_of s p = Some (ByFactory v) ->
  factory_ok (settle p st (set_modules_created n s)) ->
  invariant (settle p st (set_modules_created n s)).
Proof.
  intros [Hc Hs Hf Hr] Hn Ho Hfac.
  set (s0 := set_modules_created n s) in *.
  assert (Hext : extends s (settle p st s0)).
  { eapply extends_trans; [by apply extends_set_modules_created|apply extends_settle]. }
  destruct (fields_settle p st s0) as (E1 & E2 & E3 & E4).
  split; [| |done|].
  - eapply conts_ok_frame; [done..| |].
    + intros src r Hin. apply in_heap_settle in Hin as [Hin _]. by left.
    + intros src r st' Hin. apply in_queue_settle in Hin as [Hin|(-> & -> & Hin)].
      * split; [|left; right; by exists st'].
        destruct Hext as (_ & Hst & _). apply Hst. by eapply queue_settled.
      * split; [|by left; left]. destruct Hin as (rs & Hrs & _).
        by rewrite state_of_settle, Hrs, decide_True.
  - eapply singleton_ok_frame; [done..| | | |].
    + unfold thens. by rewrite weight_settle.
    + intros q. by rewrite origin_of_settle.
    + intros _ q. by rewrite origin_of_settle.
    + intros p1 rs Hp1 Hrs. rewrite state_of_settle.
      destruct (singletonPromise_state s p1 Hs Hp1) as [Ho1 _].
      destruct (state_of s0 p) as [[rs0|]|]; eauto.
      case_decide; [|eauto]. subst. change (origin_of s0 p) with (origin_of s p) in *.
      congruence.
  - intros res. destruct (origin_of s res) as [o|] eqn:Hores.
    + destruct (decide (res = p)) as [->|Hne].
      * apply result_ok_at_trivial. intros o'. rewrite origin_of_settle.
        change (origin_of s0 p) with (origin_of s p). rewrite Ho. intros [= <-]. simpl. tauto.
      * eapply result_ok_at_frame; [done|by eexists| | | | |apply Hr].
        -- eapply origin_state_some. destruct Hext as (Hor & _). by apply Hor.
        -- intros st'. rewrite state_of_settle.
           destruct (state_of s0 p) as [[rs0|]|]; try done. by rewrite decide_False.
        -- intros rs' src k' _ _ Hk'. by apply has_cont_settle.
        -- intros rs'. rewrite state_of_settle.
           destruct (state_of s0 p) as [[rs0|]|]; eauto. rewrite decide_False by done. eauto.
    + apply result_ok_at_trivial. intros o'. rewrite origin_of_settle.
      change (origin_of s0 res) with (origin_of s res). by rewrite Hores.
Qed.

Lemma set_modules_created_same s : set_modules_created (modules_created s) s = s.
Proof. by destruct s. Qed.

Lemma inv_reject_factory s p v e :
  invariant s -> origin_of s p = Some (ByFactory v) ->
  invariant (settle p (Reject e) s).
Proof.
  intros Hinv Ho. rewrite <- (set_modules_created_same s) at 1.
  eapply inv_settle_factory_gen; [done|lia|done|].
  rewrite set_modules_created_same.
  eapply factory_ok_frame; [apply Hinv| |].
  - by destruct (fields_settle p (Reject e) s) as (_ & _ & -> & _).
  - intros q v' val. rewrite origin_of_settle, state_of_settle.
    destruct (state_of s p) as [[rs0|]|]; try done. by case_decide.
Qed.

Lemma buildModule_identity v wm id : identity (buildModule v wm id) = id.
Proof. by destruct v. Qed.

Lemma inv_fulfill_factory s p v wm :
  invariant s -> origin_of s p = Some (ByFactory v) ->
  invariant (settle p (Fulfill (VModule (buildModule v wm (modules_created s))))
               (set_modules_created (S (modules_created s)) s)).
Proof.
  intros Hinv Ho. eapply inv_settle_factory_gen; [done|lia|done|].
  pose proof (inv_factory s Hinv) as Hf.
  set (s0 := set_modules_created (S (modules_created s)) s).
  set (m := buildModule v wm (modules_created s)).
  destruct (fields_settle p (Fulfill (VModule m)) s0) as (_ & _ & E3 & _).
  intros q v' val. rewrite origin_of_settle, state_of_settle, E3.
  change (origin_of s0) with (origin_of s). change (state_of s0) with (state_of s).
  change (modules_created s0) with (S (modules_created s)).
  assert (Hold : forall q v' val,
    origin_of s q = Some (ByFactory v') ->
    state_of s q = Some (Settled (Fulfill val)) ->
    exists wm' id, val = VModule (buildModule v' wm' id) /\ id < S (modules_created s)
      /\ forall q' v'' wm'',
           origin_of s q' = Some (ByFactory v'') ->
           state_of (settle p (Fulfill (VModule m)) s0) q'
             = Some (Settled (Fulfill (VModule (buildModule v'' wm'' id)))) ->
           q' = q).
  { intros q0 v0 val0 Hq0 Hs0. destruct (Hf q0 v0 val0 Hq0 Hs0) as (wm' & id & -> & Hid & Hu).
    exists wm', id. split; [done|]. split; [lia|]. intros q' v'' wm'' Hq'.
    rewrite state_of_settle. change (state_of s0) with (state_of s).
    destruct (state_of s p) as [[rs0|]|] eqn:Hp; [|by eauto..].
    case_decide; [|by eauto]. intros [= Heq].
    apply (f_equal identity) in Heq. unfold m in Heq.
    rewrite !buildModule_identity in Heq. lia. }
  destruct (state_of s p) as [[rs0|st0]|] eqn:Hp.
  - case_decide as Hq.
    + subst q. intros Ho' [= <-]. assert (v' = v) as -> by congruence.
      exists wm, (modules_created s). split; [done|]. split; [lia|].
      intros q' v'' wm'' Hq'. rewrite origin_of_settle in Hq'.
      rewrite state_of_settle. change (state_of s0) with (state_of s). rewrite Hp.
      case_decide; [done|]. intros Hs'.
      destruct (Hf q' v'' _ Hq' Hs') as (wm3 & id3 & [= Heq] & Hid & _).
      apply (f_equal identity) in Heq. rewrite !buildModule_identity in Heq. lia.
    + intros Hq1 Hq2. destruct (Hold q v' val Hq1 Hq2) as (wm' & id & -> & Hid & Hu).
      exists wm', id. split; [done|]. split; [done|]. intros q' v'' wm''.
      rewrite origin_of_settle. apply Hu.
  - intros Hq1 Hq2. destruct (Hold q v' val Hq1 Hq2) as (wm' & id & -> & Hid & Hu).
    exists wm', id. split; [done|]. split; [done|]. intros q' v'' wm''.
    rewrite origin_of_settle. apply Hu.
  - intros Hq1 Hq2. destruct (Hold q v' val Hq1 Hq2) as (wm' & id & -> & Hid & Hu).
    exists wm', id. split; [done|]. split; [done|]. intros q' v'' wm''.
    rewrite origin_of_settle. apply Hu.
Qed.

(** A suspended body moving from one [await] to the next. *)
Lemma inv_restage s p c c' :
  invariant s -> heap s !! p = Some c ->
  origin c' = origin c -> state c' = state c ->
  invariant (set_heap (<[p:=c']> (heap s)) s).
Proof.
  intros [Hc Hs Hf Hr] Hp Ho Hst. set (s' := set_heap (<[p:=c']> (heap s)) s).
  assert (Hor : forall q, origin_of s' q = origin_of s q).
  { intros q. by apply origin_of_insert with c. }
  assert (Hso : forall q, state_of s' q = state_of s q).
  { intros q. unfold s'. rewrite (state_of_insert s p c c' q Hp).
    case_decide; [|done]. subst. unfold state_of. rewrite Hp. simpl. by f_equal. }
  assert (Hthens : thens s' = thens s).
  { unfold thens, weight, s'; simpl.
    pose proof (sum_list_with_insert (cell_weight then_weight) (heap s) p c' c Hp) as H.
    unfold cell_weight in *. rewrite Hst in H. lia. }
  assert (Hheap : forall src r, in_heap s' src r <-> in_heap s src r).
  { intros src r. unfold in_heap. by setoid_rewrite Hso. }
  assert (Hcont : forall src r, has_cont s' src r <-> has_cont s src r).
  { intros src r. unfold has_cont. by rewrite Hheap. }
  assert (Hext : extends s s').
  { repeat split; try done; intros q x; by rewrite ?Hor, ?Hso. }
  split.
  - eapply conts_ok_frame; [done..| |].
    + intros src r Hin. left. by apply Hheap.
    + intros src r st Hin. change (in_queue s src r st) in Hin. rewrite Hso.
      split; [by eapply queue_settled|]. left. right. by exists st.
  - eapply singleton_ok_frame; [done..| | |].
    + intros q. by rewrite Hor.
    + intros _ q. by rewrite Hor.
    + intros p1 rs _. rewrite Hso. eauto.
  - eapply factory_ok_frame; [done|done|]. intros q v val. by rewrite Hor, Hso.
  - intros res. destruct (origin_of s res) as [o|] eqn:Hores.
    + eapply result_ok_at_frame; [done|by eexists| | | | |apply Hr].
      * rewrite Hso. by eapply origin_state_some.
      * intros st. by rewrite Hso.
      * intros rs' src k _ _. by rewrite Hcont.
      * intros rs'. rewrite Hso. eauto.
    + apply result_ok_at_trivial. intros o. by rewrite Hor, Hores.
Qed.

Lemma inv_resumeAfterImports s p failure s' :
  invariant s -> resumeAfterImports p failure s = Some s' -> invariant s'.
Proof.
  intros Hinv. unfold resumeAfterImports.
  destruct (heap s !! p) as [c|] eqn:Hp; [|done].
  destruct (origin c) as [v| | | |] eqn:Ho; try done.
  destruct (stage c) as [[|]|]; try done.
  destruct (state c) as [rs|] eqn:Hst; try done.
  assert (origin_of s p = Some (ByFactory v)) as Hop.
  { unfold origin_of. by rewrite Hp; simpl; rewrite Ho. }
  destruct failure as [e|]; intros [= <-].
  - by eapply inv_reject_factory.
  - by eapply inv_restage.
Qed.

Lemma inv_resumeAfterLoader s p outcome s' :
  invariant s -> resumeAfterLoader p outcome s = Some s' -> invariant s'.
Proof.
  intros Hinv. unfold resumeAfterLoader.
  destruct (heap s !! p) as [c|] eqn:Hp; [|done].
  destruct (origin c) as [v| | | |] eqn:Ho; try done.
  destruct (stage c) as [[|]|]; try done.
  destruct (state c) as [rs|] eqn:Hst; try done.
  assert (origin_of s p = Some (ByFactory v)) as Hop.
  { unfold origin_of. by rewrite Hp; simpl; rewrite Ho. }
  destruct outcome as [wm|e]; intros [= <-].
  - by eapply inv_fulfill_factory.
  - by eapply inv_reject_factory.
Qed.

End Environment.

(** ** The invariant across a reaction job: what all jobs share *)

Section Jobs.
Implicit Types (s : State) (p q : nat) (r : Reaction) (st : Settlement).

Lemma same_heap_pop s qs : same_heap s (set_microtasks qs s).
Proof. done. Qed.

Lemma same_heap_pop_set s qs v : same_heap s (set_singleton v (set_microtasks qs s)).
Proof. done. Qed.

Lemma same_heap_origin s s1 q : same_heap s s1 -> origin_of s1 q = origin_of s q.
Proof. intros (H & _). unfold origin_of. by rewrite H. Qed.

Lemma same_heap_state s s1 q : same_heap s s1 -> state_of s1 q = state_of s q.
Proof. intros (H & _). unfold state_of. by rewrite H. Qed.

Lemma same_heap_weight w s s1 j qs :
  same_heap s s1 -> microtasks s = j :: qs -> microtasks s1 = qs ->
  weight w s = w (job_reaction j) + weight w s1.
Proof.
  intros (H & _) Hq Hq1. unfold weight. rewrite H, Hq, Hq1. simpl. lia.
Qed.

Lemma run_job_common s s1 src r st qs st' :
  invariant s ->
  microtasks s = {| job_source := src; job_reaction := r; job_settlement := st |} :: qs ->
  same_heap s s1 -> microtasks s1 = qs ->
  (forall v, origin_of s (target r) <> Some (ByFactory v)) ->
  let s' := settle (target r) st' s1 in
  extends s s' /\ conts_ok s' /\ factory_ok s'
  /\ (forall res,
        res <> target r \/ (exists x, state_of s (target r) = Some (Settled x)) ->
        result_ok_at s' res).
Proof.
  intros [Hc Hs Hf Hr] Hq Hsame Hq1 Hnf s'.
  pose proof (fun q => same_heap_origin s s1 q Hsame) as Hor.
  pose proof (fun q => same_heap_state s s1 q Hsame) as Hso.
  destruct (fields_settle (target r) st' s1) as (E1 & E2 & E3 & E4).
  assert (Hheap : forall src' r', in_heap s1 src' r' <-> in_heap s src' r').
  { intros src' r'. unfold in_heap. by rewrite Hso. }
  assert (Hqueue : forall src' r' st'', in_queue s1 src' r' st'' -> in_queue s src' r' st'').
  { intros src' r' st''. unfold in_queue. rewrite Hq1, Hq. intros H; apply elem_of_cons; by right. }
  assert (Hcont : forall src' k, has_cont s src' k -> target k <> target r ->
                                 has_cont s1 src' k).
  { intros src' k [Hin|[st0 Hin]] Hne.
    - left. by apply Hheap.
    - right. exists st0. unfold in_queue in *. rewrite Hq1. rewrite Hq in Hin.
      apply elem_of_cons in Hin as [Heq|Hin]; [|done]. simplify_eq. }
  assert (Hext : extends s s').
  { eapply extends_trans; [|apply extends_settle].
    destruct Hsame as (_ & ? & ?).
    repeat split; intros; rewrite ?Hor, ?Hso; try done; try congruence; lia. }
  split; [done|]. split; [|split].
  - eapply conts_ok_frame; [done..| |].
    + intros src' r' Hin. apply in_heap_settle in Hin as [Hin _]. left. by apply Hheap.
    + intros src' r' st'' Hin.
      apply in_queue_settle in Hin as [Hin|(-> & -> & Hin)].
      * apply Hqueue in Hin. split; [|left; right; by exists st''].
        destruct Hext as (_ & Hst & _). apply Hst. by eapply queue_settled.
      * split; [|left; left; by apply Hheap]. destruct Hin as (rs & Hrs & _).
        unfold s'. by rewrite state_of_settle, Hrs, decide_True.
  - eapply factory_ok_frame; [done| destruct Hsame as (_ & _ & ?); unfold s'; lia |].
    intros q v val. unfold s'. rewrite origin_of_settle, state_of_settle, Hor.
    rewrite !Hso. intros Hoq.
    destruct (state_of s (target r)) as [[rs0|]|]; try done.
    case_decide; [|done]. subst q. by destruct (Hnf v).
  - intros res Hres. destruct (origin_of s res) as [o|] eqn:Hores.
    + assert (Hsame_state : state_of s' res = state_of s res).
      { unfold s'. rewrite state_of_settle, !Hso.
        destruct (state_of s (target r)) as [[rs0|]|] eqn:Ht; try done.
        destruct Hres as [Hne|[x Hx]]; [by rewrite decide_False|done]. }
      eapply result_ok_at_frame; [done|by eexists| | | | |apply Hr].
      * rewrite Hsame_state. by eapply origin_state_some.
      * intros st0. by rewrite Hsame_state.
      * intros rs' src' k Hpend Hk Hin. apply has_cont_settle. apply Hcont; [done|].
        rewrite Hk. intros ->. rewrite Hsame_state in Hpend.
        destruct Hres as [Hne|[x Hx]]; [done|congruence].
      * intros rs'. rewrite Hsame_state. eauto.
    + apply result_ok_at_trivial. intros o. unfold s'.
      by rewrite origin_of_settle, Hor, Hores.
Qed.

End Jobs.

(** ** The invariant across a reaction job: each kind of job *)

Section RunningJobs.
Implicit Types (s : State) (p q : nat) (r : Reaction) (st : Settlement).

Lemma head_job s src r st qs :
  conts_ok s ->
  microtasks s = {| job_source := src; job_reaction := r; job_settlement := st |} :: qs ->
  cont_ok s src r /\ state_of s src = Some (Settled st).
Proof.
  intros [_ Hq] Hm. apply Hq. unfold in_queue. rewrite Hm. by constructor.
Qed.

Lemma inv_run_await s src r st qs st' o :
  invariant s ->
  microtasks s = {| job_source := src; job_reaction := r; job_settlement := st |} :: qs ->
  then_weight r = 0 -> origin_of s (target r) = Some o -> is_result o ->
  (forall rs, state_of s (target r) = Some (Pending rs) ->
     result_ok_at (settle (target r) st' (set_microtasks qs s)) (target r)) ->
  invariant (settle (target r) st' (set_microtasks qs s)).
Proof.
  intros Hinv Hq Hw Ho Hres Hnew. set (s1 := set_microtasks qs s).
  destruct (run_job_common s s1 src r st qs st' Hinv Hq (same_heap_pop s qs) eq_refl)
    as (Hext & Hc' & Hf' & Hr').
  { intros v. rewrite Ho. intros [= ->]. done. }
  destruct Hinv as [Hc Hs Hf Hr].
  destruct (fields_settle (target r) st' s1) as (E1 & E2 & E3 & E4).
  split; [done| |done|].
  - eapply singleton_ok_frame; [done..| | | |].
    + unfold thens. rewrite weight_settle.
      rewrite (same_heap_weight then_weight s s1 _ qs (same_heap_pop s qs) Hq eq_refl).
      simpl. rewrite Hw. done.
    + intros q. by rewrite origin_of_settle.
    + intros _ q. by rewrite origin_of_settle.
    + intros p1 rs Hp1 Hrs. rewrite state_of_settle.
      destruct (singletonPromise_state s p1 Hs Hp1) as [Ho1 _].
      change (state_of s1) with (state_of s).
      destruct (state_of s (target r)) as [[rs0|]|]; eauto.
      case_decide; [|eauto]. subst p1. rewrite Ho in Ho1. simplify_eq. done.
  - intros res. destruct (decide (res = target r)) as [->|Hne]; [|by apply Hr'; left].
    destruct (state_of s (target r)) as [[rs|x]|] eqn:Ht.
    + by apply (Hnew rs).
    + apply Hr'. right. by exists x.
    + destruct (origin_state_some _ _ _ Ho) as [x Hx]. congruence.
Qed.

Lemma follows_settled s s1 res src k wrap st st' rs :
  same_heap s s1 ->
  state_of s res = Some (Pending rs) ->
  state_of s src = Some (Settled st) ->
  match st, st' with
  | Fulfill w, Fulfill v => v = wrap w
  | Reject e, Reject e' => e' = e
  | _, _ => False
  end ->
  follows (settle res st' s1) res src k wrap.
Proof.
  intros Hsame Hres Hsrc Hrel. unfold follows.
  rewrite !state_of_settle, !(same_heap_state s s1) by done. rewrite Hres.
  rewrite decide_True by done.
  rewrite decide_False by (intros ->; congruence).
  destruct st as [w|e], st' as [v|e']; try done; [eauto|by subst].
Qed.

Lemma inv_run_then s src d st qs :
  invariant s ->
  microtasks s
  = {| job_source := src; job_reaction := ThenSetSingleton d; job_settlement := st |} :: qs ->
  invariant (runReaction (ThenSetSingleton d) st (set_microtasks qs s)).
Proof.
  intros Hinv Hq.
  destruct (head_job s src _ st qs (inv_conts s Hinv) Hq) as [(Hdsrc & Hsp & Hosrc) Hsrc].
  pose proof (inv_singleton s Hinv) as Hs. unfold singleton_ok in Hs. rewrite Hsp in Hs.
  destruct Hs as (Huniq & Hod & Hcase).
  set (s1 := match st with
             | Fulfill v => set_singleton v (set_microtasks qs s)
             | Reject _ => set_microtasks qs s
             end).
  assert (Hsame : same_heap s s1) by (unfold s1; by destruct st).
  assert (Hq1 : microtasks s1 = qs) by (unfold s1; by destruct st).
  assert (Hrun : runReaction (ThenSetSingleton d) st (set_microtasks qs s)
                 = settle d st s1) by (unfold s1; by destruct st).
  rewrite Hrun.
  pose proof (same_heap_weight then_weight s s1 _ qs Hsame Hq Hq1) as Hw.
  simpl in Hw. fold (thens s) in Hw. fold (thens s1) in Hw.
  destruct (state_of s d) as [[rs|[v|e]]|] eqn:Hd; [| | |done];
    [|destruct Hcase as (_ & ?); lia|destruct Hcase as (_ & ?); lia].
  destruct Hcase as [Hnone Hone].
  destruct (run_job_common s s1 src (ThenSetSingleton d) st qs st Hinv Hq Hsame Hq1)
    as (Hext & Hc' & Hf' & Hr').
  { intros v. simpl. congruence. }
  simpl in *. destruct (fields_settle d st s1) as (E1 & E2 & E3 & E4).
  split; [done| |done|].
  - unfold singleton_ok. pose proof Hsame as (_ & Hsp1 & _).
    rewrite E2, Hsp1, Hsp, E1. split; [|split].
    + intros q. rewrite origin_of_settle, (same_heap_origin s s1) by done. apply Huniq.
    + by rewrite origin_of_settle, (same_heap_origin s s1).
    + rewrite state_of_settle, !(same_heap_state s s1) by done.
      rewrite Hd, decide_True by done. unfold thens in *. rewrite weight_settle.
      destruct st as [v|e].
      * split; [done|lia].
      * split; [done|lia].
  - intros res. destruct (decide (res = d)) as [->|Hne]; [|by apply Hr'; left].
    unfold result_ok_at. rewrite origin_of_settle, (same_heap_origin s s1), Hod by done.
    exists src. split; [done|]. split.
    + by rewrite origin_of_settle, (same_heap_origin s s1).
    + eapply follows_settled; [done..|]. by destruct st.
Qed.

Lemma inv_run_job s j qs :
  invariant s -> microtasks s = j :: qs ->
  invariant (runReaction (job_reaction j) (job_settlement j) (set_microtasks qs s)).
Proof.
  intros Hinv Hq. destruct j as [src r st]. simpl.
  destruct (head_job s src r st qs (inv_conts s Hinv) Hq) as [Hok Hsrc].
  destruct r as [d|res|o res|o res].
  - by eapply inv_run_then.
  - destruct Hok as [Hsp Hores].
    apply (inv_run_await s src (AwaitInGetQuickJS res) st qs st ByGetQuickJS);
      try done.
    intros rs Hrs. unfold result_ok_at. rewrite origin_of_settle.
    change (origin_of (set_microtasks qs s)) with (origin_of s). simpl. rewrite Hores.
    exists src. split.
    + by destruct (fields_settle res st (set_microtasks qs s)) as (_ & -> & _).
    + eapply follows_settled; [apply same_heap_pop|done..|]. by destruct st.
  - destruct Hok as (-> & Hosrc & Hores).
    assert (Hgen : forall st',
      match st, st' with
      | Fulfill w, Fulfill v => v = VRuntime w o
      | Reject e, Reject e' => e' = e
      | _, _ => False
      end ->
      invariant (settle (S src) st' (set_microtasks qs s))).
    { intros st' Hrel.
      apply (inv_run_await s src (AwaitInNewAsyncRuntime o (S src)) st qs st'
               (ByNewAsyncRuntime o)); try done.
      intros rs Hrs. unfold result_ok_at. rewrite origin_of_settle.
      change (origin_of (set_microtasks qs s)) with (origin_of s). simpl. rewrite Hores.
      exists src. split; [done|]. split; [by rewrite origin_of_settle|].
      eapply follows_settled; [apply same_heap_pop|done..]. }
    destruct st as [w|e]; simpl; by apply Hgen.
  - destruct Hok as (-> & Hosrc & Hores).
    assert (Hgen : forall st',
      match st, st' with
      | Fulfill w, Fulfill v => v = VContext w o
      | Reject e, Reject e' => e' = e
      | _, _ => False
      end ->
      invariant (settle (S src) st' (set_microtasks qs s))).
    { intros st' Hrel.
      apply (inv_run_await s src (AwaitInNewAsyncContext o (S src)) st qs st'
               (ByNewAsyncContext o)); try done.
      intros rs Hrs. unfold result_ok_at. rewrite origin_of_settle.
      change (origin_of (set_microtasks qs s)) with (origin_of s). simpl. rewrite Hores.
      exists src. split; [done|]. split; [by rewrite origin_of_settle|].
      eapply follows_settled; [apply same_heap_pop|done..]. }
    destruct st as [w|e]; simpl; by apply Hgen.
Qed.

End RunningJobs.

(** ** Steps and runs *)

Section Steps.
Implicit Types (s : State) (p q : nat) (r : Reaction) (st : Settlement).

Lemma invariant_initial : invariant initial.
Proof.
  split.
  - split.
    + intros src r (rs & H & _). discriminate.
    + intros src r st H. by apply elem_of_nil in H.
  - split; [done|]. by intros p.
  - by intros p v val.
  - by intros res.
Qed.

Lemma invariant_step s ev s' c :
  invariant s -> step s ev = Some (s', c) -> invariant s'.
Proof.
  intros Hinv. destruct ev as [| | | |o|o|p failure|p outcome|]; unfold step.
  - pose proof (inv_getQuickJS s Hinv) as H. destruct (getQuickJS s). by intros [= <- <-].
  - destruct (getQuickJSSync s); by intros [= <- <-].
  - intros [= <- <-]. by apply inv_alloc_factory.
  - intros [= <- <-]. by apply inv_alloc_factory.
  - pose proof (inv_newAsyncRuntime o s Hinv) as H. destruct (newAsyncRuntime o s).
    by intros [= <- <-].
  - pose proof (inv_newAsyncContext o s Hinv) as H. destruct (newAsyncContext o s).
    by intros [= <- <-].
  - destruct (resumeAfterImports p failure s) as [s1|] eqn:E; simpl; [|done].
    intros [= <- <-]. by eapply inv_resumeAfterImports.
  - destruct (resumeAfterLoader p outcome s) as [s1|] eqn:E; simpl; [|done].
    intros [= <- <-]. by eapply inv_resumeAfterLoader.
  - destruct (microtasks s) as [|j qs] eqn:Hq; [done|].
    intros [= <- <-]. by apply inv_run_job.
Qed.

Lemma extends_set_singletonPromise s p :
  singletonPromise s = None -> extends s (set_singletonPromise p s).
Proof. intros H. repeat split; try done. intros q. by rewrite H. Qed.

Lemma extends_getQuickJS s : extends s (getQuickJS s).2.
Proof.
  destruct (singletonPromise s) as [p1|] eqn:Hp1.
  - rewrite (getQuickJS_some s p1 Hp1). apply extends_chain.
  - rewrite (getQuickJS_none s Hp1). cbv zeta.
    eapply extends_trans; [|apply extends_chain].
    eapply extends_trans; [apply extends_alloc|].
    eapply extends_trans; [apply extends_chain|].
    apply extends_set_singletonPromise.
    by destruct (fields_chain (length (heap s)) ByThen ThenSetSingleton
                   (newQuickJSWASMModule s).2) as (_ & -> & _).
Qed.

Lemma extends_runReaction s r st qs :
  extends s (runReaction r st (set_microtasks qs s)).
Proof.
  assert (forall s1 t st', same_heap s s1 -> extends s (settle t st' s1)) as H.
  { intros s1 t st' Hsame. eapply extends_trans; [|apply extends_settle].
    pose proof (fun q => same_heap_origin s s1 q Hsame) as Hor.
    pose proof (fun q => same_heap_state s s1 q Hsame) as Hso.
    destruct Hsame as (_ & ? & ?).
    repeat split; intros; rewrite ?Hor, ?Hso; try done; try congruence; lia. }
  destruct r, st; simpl; apply H; done.
Qed.

Lemma extends_insert_same s p c c' :
  heap s !! p = Some c -> origin c' = origin c -> state c' = state c ->
  extends s (set_heap (<[p:=c']> (heap s)) s).
Proof.
  intros Hp Ho Hst. repeat split; try done.
  - intros q o. by rewrite (origin_of_insert s p c c' q Hp Ho).
  - intros q st. rewrite (state_of_insert s p c c' q Hp). case_decide; [|done].
    subst. unfold state_of. rewrite Hp. simpl. congruence.
Qed.

Lemma extends_step s ev s' c : step s ev = Some (s', c) -> extends s s'.
Proof.
  destruct ev as [| | | |o|o|p failure|p outcome|]; unfold step.
  - pose proof (extends_getQuickJS s) as H. destruct (getQuickJS s). by intros [= <- <-].
  - destruct (getQuickJSSync s); intros [= <- <-]; apply extends_refl.
  - intros [= <- <-]. apply extends_alloc.
  - intros [= <- <-]. apply extends_alloc.
  - intros [= <- <-]. change (newAsyncRuntime o s).2
      with (chain (length (heap s)) (ByNewAsyncRuntime o) (AwaitInNewAsyncRuntime o)
              (newQuickJSAsyncWASMModule s).2).2.
    eapply extends_trans; [apply extends_alloc|apply extends_chain].
  - intros [= <- <-]. change (newAsyncContext o s).2
      with (chain (length (heap s)) (ByNewAsyncContext o) (AwaitInNewAsyncContext o)
              (newQuickJSAsyncWASMModule s).2).2.
    eapply extends_trans; [apply extends_alloc|apply extends_chain].
  - unfold resumeAfterImports. destruct (heap s !! p) as [c0|] eqn:Hp; [|done].
    destruct (origin c0) as [v| | | |] eqn:Ho; try done.
    destruct (stage c0) as [[|]|]; try done.
    destruct (state c0) as [rs|] eqn:Hst; try done.
    destruct failure as [e|]; simpl; intros [= <- <-].
    + apply extends_settle.
    + by eapply extends_insert_same.
  - unfold resumeAfterLoader. destruct (heap s !! p) as [c0|] eqn:Hp; [|done].
    destruct (origin c0) as [v| | | |] eqn:Ho; try done.
    destruct (stage c0) as [[|]|]; try done.
    destruct (state c0) as [rs|] eqn:Hst; try done.
    destruct outcome as [wm|e]; simpl; intros [= <- <-].
    + eapply extends_trans; [|apply extends_settle].
      apply extends_set_modules_created. lia.
    + apply extends_settle.
  - destruct (microtasks s) as [|j qs] eqn:Hq; [done|].
    intros [= <- <-]. apply extends_runReaction.
Qed.

(** *** Runs *)

Lemma exec_app s evs1 evs2 :
  exec s (evs1 ++ evs2) = exec s evs1 ≫= fun s' => exec s' evs2.
Proof.
  revert s. induction evs1 as [|ev evs1 IH]; intros s; simpl; [done|].
  destruct (step s ev) as [[s1 c]|]; [apply IH|done].
Qed.

Lemma invariant_exec s evs s' :
  invariant s -> exec s evs = Some s' -> invariant s'.
Proof.
  revert s. induction evs as [|ev evs IH]; intros s Hinv; simpl.
  - by intros [= <-].
  - destruct (step s ev) as [[s1 c]|] eqn:E; [|done].
    apply IH. by eapply invariant_step.
Qed.

Lemma extends_exec s evs s' : exec s evs = Some s' -> extends s s'.
Proof.
  revert s. induction evs as [|ev evs IH]; intros s; simpl.
  - intros [= <-]. apply extends_refl.
  - destruct (step s ev) as [[s1 c]|] eqn:E; [|done].
    intros H. eapply extends_trans; [by eapply extends_step|by apply IH].
Qed.

Lemma invariant_reachable s : reachable s -> invariant s.
Proof. intros [evs H]. eapply invariant_exec; [apply invariant_initial|done]. Qed.

Lemma reachable_from_trans s1 s2 s3 :
  reachable_from s1 s2 -> reachable_from s2 s3 -> reachable_from s1 s3.
Proof.
  intros [evs1 H1] [evs2 H2]. exists (evs1 ++ evs2). by rewrite exec_app, H1.
Qed.

(** *** [singleton] is assigned once *)

Lemma singleton_resolved s :
  invariant s -> singleton s = initializer_resolved s.
Proof.
  intros Hinv. pose proof (inv_singleton s Hinv) as H.
  unfold singleton_ok, initializer_resolved in *.
  destruct (singletonPromise s) as [p1|]; [|by destruct H].
  destruct H as (_ & _ & H).
  destruct (state_of s p1) as [[rs|[v|e]]|]; try done; by destruct H.
Qed.

Lemma initializer_resolved_stable s s' v :
  extends s s' -> initializer_resolved s = Some v -> initializer_resolved s' = Some v.
Proof.
  intros (_ & Hst & Hsp & _). unfold initializer_resolved.
  destruct (singletonPromise s) as [p1|] eqn:Hp1; [|done].
  destruct (state_of s p1) as [[rs|[w|e]]|] eqn:Hs1; try done.
  intros [= <-]. by rewrite (Hsp p1 eq_refl), (Hst p1 _ Hs1).
Qed.

(** *** Draining the microtask queue *)

Lemma weight_runReaction w s j qs :
  microtasks s = j :: qs ->
  weight w s
  = w (job_reaction j)
    + weight w (runReaction (job_reaction j) (job_settlement j) (set_microtasks qs s)).
Proof.
  intros Hq.
  assert (forall s1 t st', same_heap s s1 -> microtasks s1 = qs ->
            weight w s = w (job_reaction j) + weight w (settle t st' s1)) as H.
  { intros s1 t st' Hsame Hq1. rewrite weight_settle. by eapply same_heap_weight. }
  destruct j as [src r st]. destruct r, st; simpl; apply H; done.
Qed.

Lemma pending_work_queue s : length (microtasks s) <= pending_work s.
Proof.
  unfold pending_work, weight.
  assert (forall l : list Job, sum_list_with (fun j => 1) l = length l) as ->; [|lia].
  induction l; simpl; lia.
Qed.

Lemma drain_empty n s : pending_work s <= n -> microtasks (drain n s) = [].
Proof.
  revert s. induction n as [|n IH]; intros s Hn; simpl.
  - pose proof (pending_work_queue s). destruct (microtasks s); [done|simpl in *; lia].
  - destruct (microtasks s) as [|j qs] eqn:Hq; [done|].
    apply IH. pose proof (weight_runReaction (fun _ => 1) s j qs Hq) as H.
    cbv beta in H. unfold pending_work in *. lia.
Qed.

Lemma drain_reachable n s : reachable_from s (drain n s).
Proof.
  revert s. induction n as [|n IH]; intros s; simpl.
  - by exists [].
  - destruct (microtasks s) as [|j qs] eqn:Hq; [by exists []|].
    destruct (IH (runReaction (job_reaction j) (job_settlement j) (set_microtasks qs s)))
      as [evs Hevs].
    exists (RunMicrotask :: evs). simpl. by rewrite Hq.
Qed.

Lemma follows_quiescent s res src k wrap st :
  microtasks s = [] -> follows s res src k wrap ->
  state_of s src = Some (Settled st) ->
  state_of s res = Some (Settled (carried wrap st)).
Proof.
  intros Hq. unfold follows. destruct (state_of s res) as [[rs|[v|e]]|]; [| | |done].
  - intros [(rs' & Hrs' & _)|(st' & Hin)] Hsrc; [congruence|].
    unfold in_queue in Hin. rewrite Hq in Hin. by apply elem_of_nil in Hin.
  - intros (w & Hw & ->) Hsrc. rewrite Hw in Hsrc. by simplify_eq.
  - intros He Hsrc. rewrite He in Hsrc. by simplify_eq.
Qed.

End Steps.

(** ** Counting factory calls *)

Ltac fc := repeat (case_decide; simplify_eq); simpl; try lia; try done.

Section Counting.
Implicit Types (s : State) (p q : nat) (r : Reaction) (st : Settlement).

Lemma factory_calls_alloc v o sg s :
  factory_calls v (allocPromise o sg s).2
  = factory_calls v s + (if decide (o = ByFactory v) then 1 else 0).
Proof.
  unfold factory_calls, allocPromise; simpl. rewrite sum_list_with_app. simpl. lia.
Qed.

Lemma factory_calls_insert v s p c c' :
  heap s !! p = Some c -> origin c' = origin c ->
  factory_calls v (set_heap (<[p:=c']> (heap s)) s) = factory_calls v s.
Proof.
  intros Hp Ho. unfold factory_calls; simpl.
  pose proof (sum_list_with_insert
    (fun c => if decide (origin c = ByFactory v) then 1 else 0) (heap s) p c' c Hp) as H.
  simpl in H. rewrite Ho in H. lia.
Qed.

Lemma factory_calls_subscribe v p r s :
  factory_calls v (subscribe p r s) = factory_calls v s.
Proof.
  destruct (state_of s p) as [[rs|st]|] eqn:Hp.
  - destruct (subscribe_pending p r s rs Hp) as (c & Hc & _ & ->).
    by apply factory_calls_insert with c.
  - by rewrite (subscribe_settled p r s st Hp).
  - unfold subscribe, state_of in *. by destruct (heap s !! p).
Qed.

Lemma factory_calls_settle v p st s :
  factory_calls v (settle p st s) = factory_calls v s.
Proof.
  destruct (state_of s p) as [[rs|st']|] eqn:Hp.
  - destruct (settle_pending p st s rs Hp) as (c & Hc & _ & ->).
    change (factory_calls v (set_microtasks ?q ?s)) with (factory_calls v s).
    by apply factory_calls_insert with c.
  - by rewrite (settle_settled p st s st' Hp).
  - by rewrite settle_none.
Qed.

Lemma factory_calls_chain v p o k s :
  factory_calls v (chain p o k s).2
  = factory_calls v s + (if decide (o = ByFactory v) then 1 else 0).
Proof. by rewrite chain_snd, factory_calls_subscribe, factory_calls_alloc. Qed.

Lemma factory_calls_same_heap v s s1 :
  same_heap s s1 -> factory_calls v s1 = factory_calls v s.
Proof. intros (H & _). unfold factory_calls. by rewrite H. Qed.

Lemma factory_calls_runReaction v s r st qs :
  factory_calls v (runReaction r st (set_microtasks qs s)) = factory_calls v s.
Proof.
  assert (forall s1 t st', same_heap s s1 ->
            factory_calls v (settle t st' s1) = factory_calls v s) as H.
  { intros s1 t st' Hsame. rewrite factory_calls_settle.
    by apply factory_calls_same_heap. }
  destruct r, st; simpl; apply H; done.
Qed.

Lemma factory_calls_getQuickJS v s :
  factory_calls v (getQuickJS s).2
  = factory_calls v s + factory_calls_by v s CallGetQuickJS.
Proof.
  destruct (singletonPromise s) as [p1|] eqn:Hp1.
  - rewrite (getQuickJS_some s p1 Hp1), factory_calls_chain.
    unfold factory_calls_by. rewrite Hp1. destruct v; fc.
  - rewrite (getQuickJS_none s Hp1). cbv zeta. rewrite factory_calls_chain.
    change (factory_calls v (set_singletonPromise ?d ?s0)) with (factory_calls v s0).
    rewrite factory_calls_chain.
    unfold newQuickJSWASMModule. rewrite factory_calls_alloc.
    unfold factory_calls_by. rewrite Hp1. destruct v; fc.
Qed.

Lemma step_getQuickJS s :
  step s CallGetQuickJS = Some ((getQuickJS s).2, ReturnsPromise (getQuickJS s).1).
Proof. unfold step. by destruct (getQuickJS s). Qed.

Lemma step_newQuickJSWASMModule s :
  step s CallNewQuickJSWASMModule
  = Some ((newQuickJSWASMModule s).2, ReturnsPromise (length (heap s))).
Proof. reflexivity. Qed.

Lemma step_newQuickJSAsyncWASMModule s :
  step s CallNewQuickJSAsyncWASMModule
  = Some ((newQuickJSAsyncWASMModule s).2, ReturnsPromise (length (heap s))).
Proof. reflexivity. Qed.

Lemma newAsyncRuntime_snd o s :
  (newAsyncRuntime o s).2
  = (chain (length (heap s)) (ByNewAsyncRuntime o) (AwaitInNewAsyncRuntime o)
       (newQuickJSAsyncWASMModule s).2).2.
Proof. reflexivity. Qed.

Lemma newAsyncContext_snd o s :
  (newAsyncContext o s).2
  = (chain (length (heap s)) (ByNewAsyncContext o) (AwaitInNewAsyncContext o)
       (newQuickJSAsyncWASMModule s).2).2.
Proof. reflexivity. Qed.

Lemma step_newAsyncRuntime o s :
  step s (CallNewAsyncRuntime o)
  = Some ((newAsyncRuntime o s).2,
          ReturnsPromise (length (heap (newQuickJSAsyncWASMModule s).2))).
Proof. reflexivity. Qed.

Lemma step_newAsyncContext o s :
  step s (CallNewAsyncContext o)
  = Some ((newAsyncContext o s).2,
          ReturnsPromise (length (heap (newQuickJSAsyncWASMModule s).2))).
Proof. reflexivity. Qed.

Lemma factory_calls_step v s ev s' c :
  step s ev = Some (s', c) ->
  factory_calls v s' = factory_calls v s + factory_calls_by v s ev.
Proof.
  destruct ev as [| | | |o|o|p failure|p outcome|]; unfold step.
  - pose proof (factory_calls_getQuickJS v s) as H. destruct (getQuickJS s).
    by intros [= <- <-].
  - destruct (getQuickJSSync s); intros [= <- <-]; simpl; lia.
  - fold (step s CallNewQuickJSWASMModule). rewrite step_newQuickJSWASMModule.
    intros H. assert (s' = (newQuickJSWASMModule s).2) as -> by congruence. unfold newQuickJSWASMModule. rewrite factory_calls_alloc.
    destruct v; fc.
  - fold (step s CallNewQuickJSAsyncWASMModule). rewrite step_newQuickJSAsyncWASMModule.
    intros H. assert (s' = (newQuickJSAsyncWASMModule s).2) as -> by congruence. unfold newQuickJSAsyncWASMModule. rewrite factory_calls_alloc.
    destruct v; fc.
  - fold (step s (CallNewAsyncRuntime o)). rewrite step_newAsyncRuntime.
    intros H. assert (s' = (newAsyncRuntime o s).2) as -> by congruence. rewrite newAsyncRuntime_snd, factory_calls_chain.
    unfold newQuickJSAsyncWASMModule. rewrite factory_calls_alloc.
    destruct v; fc.
  - fold (step s (CallNewAsyncContext o)). rewrite step_newAsyncContext.
    intros H. assert (s' = (newAsyncContext o s).2) as -> by congruence. rewrite newAsyncContext_snd, factory_calls_chain.
    unfold newQuickJSAsyncWASMModule. rewrite factory_calls_alloc.
    destruct v; fc.
  - unfold resumeAfterImports. destruct (heap s !! p) as [c0|] eqn:Hp; [|done].
    destruct (origin c0) as [v0| | | |] eqn:Ho; try done.
    destruct (stage c0) as [[|]|]; try done.
    destruct (state c0) as [rs|] eqn:Hst; try done.
    destruct failure as [e|]; simpl; intros [= <- <-].
    + rewrite factory_calls_settle. destruct v; simpl; lia.
    + rewrite (factory_calls_insert v s p c0) by done. destruct v; simpl; lia.
  - unfold resumeAfterLoader. destruct (heap s !! p) as [c0|] eqn:Hp; [|done].
    destruct (origin c0) as [v0| | | |] eqn:Ho; try done.
    destruct (stage c0) as [[|]|]; try done.
    destruct (state c0) as [rs|] eqn:Hst; try done.
    destruct outcome as [wm|e]; simpl; intros [= <- <-];
      rewrite factory_calls_settle; destruct v; simpl; try lia; done.
  - destruct (microtasks s) as [|j qs] eqn:Hq; [done|].
    intros [= <- <-]. rewrite factory_calls_runReaction. destruct v; simpl; lia.
Qed.

Lemma singletonPromise_getQuickJS s :
  is_Some (singletonPromise (getQuickJS s).2)
  /\ (forall p, singletonPromise s = Some p ->
        singletonPromise (getQuickJS s).2 = Some p).
Proof.
  destruct (singletonPromise s) as [p1|] eqn:Hp1.
  - rewrite (getQuickJS_some s p1 Hp1).
    destruct (fields_chain p1 ByGetQuickJS AwaitInGetQuickJS s) as (_ & -> & _).
    rewrite Hp1. split; [by eexists|done].
  - rewrite (getQuickJS_none s Hp1). cbv zeta.
    match goal with |- context [chain ?p ?o ?k ?s0] =>
      destruct (fields_chain p o k s0) as (_ & -> & _) end.
    simpl. split; [by eexists|done].
Qed.

Lemma cached_step s ev s' c :
  step s ev = Some (s', c) ->
  cached s' + direct_sync_call ev = cached s + factory_calls_by Sync s ev.
Proof.
  destruct ev as [| | | |o|o|p failure|p outcome|]; unfold step.
  - pose proof (singletonPromise_getQuickJS s) as [[p1 H1] H2].
    destruct (getQuickJS s) as [p s1]. intros [= <- <-]. simpl in *.
    unfold cached. rewrite H1. destruct (singletonPromise s); simpl; lia.
  - destruct (getQuickJSSync s); intros [= <- <-]; simpl; lia.
  - by intros [= <- <-].
  - by intros [= <- <-].
  - fold (step s (CallNewAsyncRuntime o)). rewrite step_newAsyncRuntime.
    intros H. assert (s' = (newAsyncRuntime o s).2) as -> by congruence. rewrite newAsyncRuntime_snd.
    unfold cached.
    match goal with |- context [chain ?p ?o ?k ?s0] =>
      destruct (fields_chain p o k s0) as (_ & -> & _) end. simpl. lia.
  - fold (step s (CallNewAsyncContext o)). rewrite step_newAsyncContext.
    intros H. assert (s' = (newAsyncContext o s).2) as -> by congruence. rewrite newAsyncContext_snd.
    unfold cached.
    match goal with |- context [chain ?p ?o ?k ?s0] =>
      destruct (fields_chain p o k s0) as (_ & -> & _) end. simpl. lia.
  - intros H. simpl.
    unfold resumeAfterImports in H. destruct (heap s !! p) as [c0|] eqn:Hp; [|done].
    destruct (origin c0) as [v0| | | |] eqn:Ho; try done.
    destruct (stage c0) as [[|]|]; try done.
    destruct (state c0) as [rs|] eqn:Hst; try done.
    destruct failure as [e|]; simpl in H; injection H as <- <-; unfold cached.
    + by destruct (fields_settle p (Reject e) s) as (_ & -> & _).
    + simpl. lia.
  - intros H. simpl.
    unfold resumeAfterLoader in H. destruct (heap s !! p) as [c0|] eqn:Hp; [|done].
    destruct (origin c0) as [v0| | | |] eqn:Ho; try done.
    destruct (stage c0) as [[|]|]; try done.
    destruct (state c0) as [rs|] eqn:Hst; try done.
    destruct outcome as [wm|e]; simpl in H; injection H as <- <-; unfold cached;
      match goal with |- context [settle ?p ?st ?s0] =>
        destruct (fields_settle p st s0) as (_ & -> & _) end; simpl; lia.
  - destruct (microtasks s) as [|j qs] eqn:Hq; [done|].
    intros [= <- <-]. simpl. unfold cached.
    destruct j as [src r st]. destruct r, st; simpl;
      match goal with |- context [settle ?p ?st ?s0] =>
        destruct (fields_settle p st s0) as (_ & -> & _) end; simpl; lia.
Qed.

Lemma factory_calls_exec s evs s' :
  exec s evs = Some s' ->
  factory_calls Sync s' + cached s
  = factory_calls Sync s + direct_sync_calls evs + cached s'.
Proof.
  revert s. induction evs as [|ev evs IH]; intros s; simpl.
  - intros [= <-]. unfold direct_sync_calls. simpl. lia.
  - destruct (step s ev) as [[s1 c]|] eqn:E; [|done]. intros H.
    specialize (IH s1 H). pose proof (factory_calls_step Sync s ev s1 c E).
    pose proof (cached_step s ev s1 c E). unfold direct_sync_calls in *. simpl. lia.
Qed.

End Counting.

(** ** Suspended factory bodies *)

Section Suspended.
Implicit Types (s : State) (p q : nat) (r : Reaction) (st : Settlement).

Lemma suspended_origin s p v sg :
  suspended_at s p v sg -> origin_of s p = Some (ByFactory v).
Proof.
  intros (c & rs & Hp & Ho & _). unfold origin_of. rewrite Hp. simpl. by f_equal.
Qed.

Lemma suspended_pending s p v sg :
  suspended_at s p v sg -> exists rs, state_of s p = Some (Pending rs).
Proof.
  intros (c & rs & Hp & _ & _ & Hst). exists rs. unfold state_of. rewrite Hp. simpl.
  by f_equal.
Qed.

Lemma suspended_alloc o sg0 s p v sg :
  suspended_at s p v sg -> suspended_at (allocPromise o sg0 s).2 p v sg.
Proof.
  intros (c & rs & Hp & H). exists c, rs. split; [|done].
  unfold allocPromise; simpl. by apply lookup_app_l_Some.
Qed.

Lemma suspended_alloc_new v sg s :
  suspended_at (allocPromise (ByFactory v) (Some sg) s).2 (length (heap s)) v sg.
Proof.
  exists {| origin := ByFactory v; stage := Some sg; state := Pending [] |}, [].
  split; [|done]. unfold allocPromise; simpl.
  by rewrite lookup_app_r, Nat.sub_diag by lia.
Qed.

Lemma suspended_insert q c' s p v sg :
  q <> p -> suspended_at s p v sg ->
  suspended_at (set_heap (<[q:=c']> (heap s)) s) p v sg.
Proof.
  intros Hne (c & rs & Hp & H). exists c, rs. split; [|done].
  simpl. by rewrite list_lookup_insert_ne.
Qed.

Lemma suspended_subscribe q r s p v sg :
  suspended_at s p v sg -> suspended_at (subscribe q r s) p v sg.
Proof.
  intros Hs. destruct (state_of s q) as [[rs0|st]|] eqn:Hq.
  - destruct (subscribe_pending q r s rs0 Hq) as (c0 & Hc0 & Hst0 & ->).
    destruct (decide (q = p)) as [->|Hne]; [|by apply suspended_insert].
    destruct Hs as (c & rs & Hp & Ho & Hsg & Hst). simplify_eq.
    eexists _, _. split.
    { simpl. by rewrite list_lookup_insert_eq by (by eapply lookup_lt_Some). }
    done.
  - by rewrite (subscribe_settled q r s st Hq).
  - unfold subscribe, state_of in *. by destruct (heap s !! q).
Qed.

Lemma suspended_settle q st s p v sg :
  q <> p -> suspended_at s p v sg -> suspended_at (settle q st s) p v sg.
Proof.
  intros Hne Hs. destruct (state_of s q) as [[rs0|st']|] eqn:Hq.
  - destruct (settle_pending q st s rs0 Hq) as (c0 & Hc0 & Hst0 & ->).
    change (suspended_at (set_microtasks ?m ?s0) p v sg) with (suspended_at s0 p v sg).
    by apply suspended_insert.
  - by rewrite (settle_settled q st s st' Hq).
  - by rewrite settle_none.
Qed.

Lemma suspended_chain q o k s p v sg :
  suspended_at s p v sg -> suspended_at (chain q o k s).2 p v sg.
Proof. intros H. rewrite chain_snd. by apply suspended_subscribe, suspended_alloc. Qed.

Lemma suspended_same_heap s s1 p v sg :
  same_heap s s1 -> suspended_at s p v sg -> suspended_at s1 p v sg.
Proof. intros (H & _). unfold suspended_at. by rewrite H. Qed.

Lemma target_origin s src r :
  invariant s -> cont_ok s src r ->
  exists o, origin_of s (target r) = Some o /\ ~ is_factory o.
Proof.
  intros Hinv. destruct r as [d|res|o res|o res]; simpl.
  - intros (_ & Hsp & _).
    destruct (singletonPromise_state s d (inv_singleton s Hinv) Hsp) as [Ho _]. eauto.
  - intros [_ H]. eauto.
  - intros (_ & _ & H). eauto.
  - intros (_ & _ & H). eauto.
Qed.

Lemma suspended_getQuickJS s p v sg :
  suspended_at s p v sg -> suspended_at (getQuickJS s).2 p v sg.
Proof.
  intros H. destruct (singletonPromise s) as [p1|] eqn:Hp1.
  - rewrite (getQuickJS_some s p1 Hp1). by apply suspended_chain.
  - rewrite (getQuickJS_none s Hp1). cbv zeta. apply suspended_chain.
    change (suspended_at (set_singletonPromise ?d ?s0) p v sg)
      with (suspended_at s0 p v sg).
    by apply suspended_chain, suspended_alloc.
Qed.

Lemma suspended_step s ev s' c p v sg :
  invariant s -> suspended_at s p v sg -> step s ev = Some (s', c) ->
  (forall failure, ev <> ImportsSettle p failure) ->
  (forall outcome, ev <> LoaderSettles p outcome) ->
  suspended_at s' p v sg.
Proof.
  intros Hinv Hs Hstep Hi Hl.
  destruct ev as [| | | |o|o|q failure|q outcome|].
  - rewrite step_getQuickJS in Hstep.
    assert (s' = (getQuickJS s).2) as -> by congruence. by apply suspended_getQuickJS.
  - unfold step in Hstep. destruct (getQuickJSSync s); by simplify_eq.
  - rewrite step_newQuickJSWASMModule in Hstep.
    assert (s' = (newQuickJSWASMModule s).2) as -> by congruence.
    by apply suspended_alloc.
  - rewrite step_newQuickJSAsyncWASMModule in Hstep.
    assert (s' = (newQuickJSAsyncWASMModule s).2) as -> by congruence.
    by apply suspended_alloc.
  - rewrite step_newAsyncRuntime in Hstep.
    assert (s' = (newAsyncRuntime o s).2) as -> by congruence.
    rewrite newAsyncRuntime_snd. by apply suspended_chain, suspended_alloc.
  - rewrite step_newAsyncContext in Hstep.
    assert (s' = (newAsyncContext o s).2) as -> by congruence.
    rewrite newAsyncContext_snd. by apply suspended_chain, suspended_alloc.
  - assert (q <> p) as Hne by (intros ->; by apply (Hi failure)).
    unfold step, resumeAfterImports in Hstep.
    destruct (heap s !! q) as [c0|] eqn:Hq; [|done].
    destruct (origin c0) as [v0| | | |] eqn:Ho; try done.
    destruct (stage c0) as [[|]|]; try done.
    destruct (state c0) as [rs|] eqn:Hst; try done.
    destruct failure as [e|]; simpl in Hstep.
    + assert (s' = settle q (Reject e) s) as -> by congruence.
      by apply suspended_settle.
    + simplify_eq. by apply suspended_insert.
  - assert (q <> p) as Hne by (intros ->; by apply (Hl outcome)).
    unfold step, resumeAfterLoader in Hstep.
    destruct (heap s !! q) as [c0|] eqn:Hq; [|done].
    destruct (origin c0) as [v0| | | |] eqn:Ho; try done.
    destruct (stage c0) as [[|]|]; try done.
    destruct (state c0) as [rs|] eqn:Hst; try done.
    destruct outcome as [wm|e]; simpl in Hstep.
    + match type of Hstep with Some (?t, _) = _ => assert (s' = t) as -> by congruence end.
      apply suspended_settle; [done|]. by eapply suspended_same_heap.
    + assert (s' = settle q (Reject e) s) as -> by congruence.
      by apply suspended_settle.
  - unfold step in Hstep. destruct (microtasks s) as [|j qs] eqn:Hq; [done|].
    destruct j as [src r st].
    destruct (head_job s src r st qs (inv_conts s Hinv) Hq) as [Hok _].
    destruct (target_origin s src r Hinv Hok) as (o & Ho & Hnf).
    assert (target r <> p) as Hne.
    { intros Heq. rewrite Heq, (suspended_origin s p v sg Hs) in Ho.
      simplify_eq. by apply Hnf. }
    assert (forall s1 st', same_heap s s1 ->
              suspended_at (settle (target r) st' s1) p v sg) as H.
    { intros s1 st' Hsame. apply suspended_settle; [done|].
      by eapply suspended_same_heap. }
    simpl in Hstep.
    match type of Hstep with Some (?t, _) = _ => assert (s' = t) as -> by congruence end.
    destruct r, st; simpl; apply H; done.
Qed.

(** *** The environment resumes a suspended body *)

Lemma imports_resolve s p v :
  suspended_at s p v AwaitingImports ->
  exists s', step s (ImportsSettle p None) = Some (s', Done)
    /\ suspended_at s' p v AwaitingLoader.
Proof.
  intros (c & rs & Hp & Ho & Hsg & Hst).
  unfold step, resumeAfterImports. rewrite Hp, Ho, Hsg, Hst. simpl.
  eexists. split; [done|]. eexists _, rs. split.
  { simpl. by rewrite list_lookup_insert_eq by (by eapply lookup_lt_Some). }
  done.
Qed.

Lemma imports_reject s p v e :
  suspended_at s p v AwaitingImports ->
  exists s', step s (ImportsSettle p (Some e)) = Some (s', Done)
    /\ state_of s' p = Some (Settled (Reject e)).
Proof.
  intros Hs. destruct (suspended_pending s p v _ Hs) as [rs0 Hrs0].
  destruct Hs as (c & rs & Hp & Ho & Hsg & Hst).
  unfold step, resumeAfterImports. rewrite Hp, Ho, Hsg, Hst. simpl.
  eexists. split; [done|]. by rewrite state_of_settle, Hrs0, decide_True.
Qed.

Lemma loader_resolves s p v wasmModule :
  suspended_at s p v AwaitingLoader ->
  exists s', step s (LoaderSettles p (inl wasmModule)) = Some (s', Done)
    /\ state_of s' p
       = Some (Settled (Fulfill (VModule (buildModule v wasmModule (modules_created s))))).
Proof.
  intros Hs. destruct (suspended_pending s p v _ Hs) as [rs0 Hrs0].
  destruct Hs as (c & rs & Hp & Ho & Hsg & Hst).
  unfold step, resumeAfterLoader. rewrite Hp, Ho, Hsg, Hst. simpl.
  eexists. split; [done|]. rewrite state_of_settle.
  change (state_of (set_modules_created ?n ?s0)) with (state_of s0).
  by rewrite Hrs0, decide_True.
Qed.

Lemma loader_rejects s p v e :
  suspended_at s p v AwaitingLoader ->
  exists s', step s (LoaderSettles p (inr e)) = Some (s', Done)
    /\ state_of s' p = Some (Settled (Reject e)).
Proof.
  intros Hs. destruct (suspended_pending s p v _ Hs) as [rs0 Hrs0].
  destruct Hs as (c & rs & Hp & Ho & Hsg & Hst).
  unfold step, resumeAfterLoader. rewrite Hp, Ho, Hsg, Hst. simpl.
  eexists. split; [done|]. by rewrite state_of_settle, Hrs0, decide_True.
Qed.

End Suspended.

(** ** The shared module *)

Section SingletonClaims.
Implicit Types (s : State) (p q : nat) (r : Reaction) (st : Settlement).

Lemma then_follows s p1 :
  invariant s -> singletonPromise s = Some p1 ->
  exists p0, p1 = S p0 /\ origin_of s p0 = Some (ByFactory Sync)
    /\ follows s p1 p0 (ThenSetSingleton p1) (fun w => w).
Proof.
  intros Hinv Hp1.
  destruct (singletonPromise_state s p1 (inv_singleton s Hinv) Hp1) as [Ho _].
  pose proof (inv_results s Hinv p1) as H. unfold result_ok_at in H. by rewrite Ho in H.
Qed.

Lemma follows_fulfilled s res src k wrap v :
  follows s res src k wrap -> state_of s res = Some (Settled (Fulfill v)) ->
  exists w, state_of s src = Some (Settled (Fulfill w)) /\ v = wrap w.
Proof. unfold follows. intros H Hs. by rewrite Hs in H. Qed.

Lemma follows_rejected s res src k wrap e :
  follows s res src k wrap -> state_of s res = Some (Settled (Reject e)) ->
  state_of s src = Some (Settled (Reject e)).
Proof. unfold follows. intros H Hs. by rewrite Hs in H. Qed.

Lemma resolved_is_sync_module s v :
  invariant s -> initializer_resolved s = Some v ->
  exists p0 wasmModule id,
    singletonPromise s = Some (S p0)
    /\ origin_of s p0 = Some (ByFactory Sync)
    /\ state_of s p0 = Some (Settled (Fulfill v))
    /\ v = VModule (buildQuickJSWASMModule wasmModule id).
Proof.
  intros Hinv. unfold initializer_resolved.
  destruct (singletonPromise s) as [p1|] eqn:Hp1; [|done].
  destruct (state_of s p1) as [[rs|[w|e]]|] eqn:Hs1; try done. intros [= ->].
  destruct (then_follows s p1 Hinv Hp1) as (p0 & -> & Ho0 & Hf).
  destruct (follows_fulfilled _ _ _ _ _ _ Hf Hs1) as (w & Hw & ->).
  destruct (inv_factory s Hinv p0 Sync w Ho0 Hw) as (wm & id & -> & _).
  exists p0, wm, id. done.
Qed.

Lemma getQuickJS_result_follows s res :
  invariant s -> origin_of s res = Some ByGetQuickJS ->
  exists p1, singletonPromise s = Some p1
    /\ follows s res p1 (AwaitInGetQuickJS res) (fun w => w).
Proof.
  intros Hinv Ho. pose proof (inv_results s Hinv res) as H.
  unfold result_ok_at in H. by rewrite Ho in H.
Qed.

Lemma getQuickJS_result_resolved s res v :
  invariant s -> origin_of s res = Some ByGetQuickJS ->
  state_of s res = Some (Settled (Fulfill v)) ->
  initializer_resolved s = Some v.
Proof.
  intros Hinv Ho Hs. destruct (getQuickJS_result_follows s res Hinv Ho) as (p1 & Hp1 & Hf).
  destruct (follows_fulfilled _ _ _ _ _ _ Hf Hs) as (w & Hw & ->).
  unfold initializer_resolved. by rewrite Hp1, Hw.
Qed.

Lemma getQuickJS_returns s :
  origin_of (getQuickJS s).2 (getQuickJS s).1 = Some ByGetQuickJS.
Proof.
  destruct (singletonPromise s) as [p1|] eqn:Hp1.
  - rewrite (getQuickJS_some s p1 Hp1), chain_fst. by rewrite origin_of_chain, decide_True.
  - rewrite (getQuickJS_none s Hp1). cbv zeta. rewrite chain_fst.
    by rewrite origin_of_chain, decide_True.
Qed.

Lemma getQuickJS_first_call s :
  singletonPromise s = None ->
  singletonPromise (getQuickJS s).2 = Some (S (length (heap s)))
  /\ suspended_at (getQuickJS s).2 (length (heap s)) Sync AwaitingImports
  /\ has_cont (getQuickJS s).2 (length (heap s)) (ThenSetSingleton (S (length (heap s)))).
Proof.
  intros Hp1. rewrite (getQuickJS_none s Hp1). cbv zeta.
  pose proof (length_alloc (ByFactory Sync) (Some AwaitingImports) s) as Hlen.
  unfold newQuickJSWASMModule. rewrite Hlen.
  set (s0 := (allocPromise (ByFactory Sync) (Some AwaitingImports) s).2).
  set (s1 := (chain (length (heap s)) ByThen ThenSetSingleton s0).2).
  assert (Hs0 : is_Some (state_of s0 (length (heap s)))).
  { unfold s0. rewrite state_of_alloc, decide_True by done. by eexists. }
  assert (Hs1 : is_Some (state_of (set_singletonPromise (S (length (heap s))) s1)
                           (S (length (heap s))))).
  { change (is_Some (state_of s1 (S (length (heap s))))). unfold s1.
    rewrite <- Hlen. fold s0. rewrite state_of_chain_new by done. by eexists. }
  split; [|split].
  - by match goal with |- context [chain ?p ?o ?k ?s2] =>
      destruct (fields_chain p o k s2) as (_ & -> & _) end.
  - apply suspended_chain.
    change (suspended_at s1 (length (heap s)) Sync AwaitingImports).
    apply suspended_chain, suspended_alloc_new.
  - apply has_cont_chain; [done|]. left.
    change (has_cont s1 (length (heap s)) (ThenSetSingleton (S (length (heap s))))).
    apply has_cont_chain; [done|]. right. split; [done|]. unfold s0. by rewrite Hlen.
Qed.

(** C1: in every reachable state a call of [getQuickJSSync] throws the
    not-initialized error as long as the initializer started by
    [getQuickJS] (the promise cached in [singletonPromise]) has not
    resolved, and otherwise returns, without error, the value that promise
    resolved to, which is a [QuickJSWASMModule] object. *)
Theorem getQuickJSSync_throws_until_resolved s :
  reachable s ->
  getQuickJSSync s
  = match initializer_resolved s with
    | Some v => inl v
    | None => inr not_initialized
    end
  /\ (forall v, initializer_resolved s = Some v ->
        exists wasmModule id, v = VModule (buildQuickJSWASMModule wasmModule id)).
Proof.
  intros Hr. pose proof (invariant_reachable s Hr) as Hinv. split.
  - unfold getQuickJSSync. rewrite (singleton_resolved s Hinv).
    by destruct (initializer_resolved s).
  - intros v Hv. destruct (resolved_is_sync_module s v Hinv Hv) as (_ & wm & id & _ & _ & _ & ->).
    eauto.
Qed.

(** C2: the shared module is built lazily and once.  No module is built
    before the first call; a call of [getQuickJS] calls
    [newQuickJSWASMModule] exactly when nothing is cached yet and caches
    from then on, so that over any run the calls of [newQuickJSWASMModule]
    are the direct ones plus at most one made by [getQuickJS]; every promise
    returned by [getQuickJS] that is fulfilled holds the one value
    [singleton] holds, and all of them are fulfilled with it once the
    initializer has resolved and the microtask queue has run; [singleton]
    and [singletonPromise] never change once they are set. *)
Theorem getQuickJS_builds_one_module (evs : list Event) s :
  exec initial evs = Some s ->
  (singletonPromise initial = None /\ factory_calls Sync initial = 0)
  /\ (forall s0,
        factory_calls Sync (getQuickJS s0).2
          = factory_calls Sync s0 + (1 - cached s0)
        /\ cached (getQuickJS s0).2 = 1
        /\ origin_of (getQuickJS s0).2 (getQuickJS s0).1 = Some ByGetQuickJS)
  /\ factory_calls Sync s = direct_sync_calls evs + cached s
  /\ cached s <= 1
  /\ (forall res v, origin_of s res = Some ByGetQuickJS ->
        state_of s res = Some (Settled (Fulfill v)) ->
        initializer_resolved s = Some v /\ singleton s = Some v)
  /\ (forall v res, initializer_resolved s = Some v ->
        origin_of s res = Some ByGetQuickJS ->
        state_of (drain (pending_work s) s) res = Some (Settled (Fulfill v)))
  /\ (forall evs' s', exec s evs' = Some s' ->
        (forall p, singletonPromise s = Some p -> singletonPromise s' = Some p)
        /\ (forall v, singleton s = Some v -> singleton s' = Some v)).
Proof.
  intros Hexec. assert (Hinv : invariant s) by (apply invariant_reachable; by exists evs).
  split; [done|]. split; [|split; [|split; [|split; [|split]]]].
  - intros s0. split; [|split].
    + rewrite factory_calls_getQuickJS. unfold factory_calls_by, cached.
      by destruct (singletonPromise s0).
    + destruct (singletonPromise_getQuickJS s0) as [[p1 Hp1] _].
      unfold cached. by rewrite Hp1.
    + apply getQuickJS_returns.
  - pose proof (factory_calls_exec initial evs s Hexec) as H.
    change (factory_calls Sync initial) with 0 in H. change (cached initial) with 0 in H.
    lia.
  - unfold cached. destruct (singletonPromise s); lia.
  - intros res v Ho Hs. pose proof (getQuickJS_result_resolved s res v Hinv Ho Hs) as H.
    split; [done|]. by rewrite singleton_resolved.
  - intros v res Hv Ho. set (s' := drain (pending_work s) s).
    pose proof (drain_reachable (pending_work s) s) as [evs' Hevs']. fold s' in Hevs'.
    pose proof (invariant_exec s evs' s' Hinv Hevs') as Hinv'.
    pose proof (extends_exec s evs' s' Hevs') as Hext.
    pose proof (initializer_resolved_stable s s' v Hext Hv) as Hv'.
    assert (Ho' : origin_of s' res = Some ByGetQuickJS)
      by (destruct Hext as (Hor & _); by apply Hor).
    destruct (getQuickJS_result_follows s' res Hinv' Ho') as (p1 & Hp1 & Hf).
    unfold initializer_resolved in Hv'. rewrite Hp1 in Hv'.
    destruct (state_of s' p1) as [[rs|[w|e]]|] eqn:Hs1; try done. simplify_eq.
    apply (follows_quiescent s' res p1 (AwaitInGetQuickJS res) (fun w => w) (Fulfill v));
      [|done..].
    apply drain_empty. lia.
  - intros evs' s' Hevs'.
    pose proof (invariant_exec s evs' s' Hinv Hevs') as Hinv'.
    pose proof (extends_exec s evs' s' Hevs') as Hext. split.
    + by destruct Hext as (_ & _ & Hsp & _).
    + intros v. rewrite !singleton_resolved by done. by apply initializer_resolved_stable.
Qed.

(** C5: once a promise returned by [getQuickJS] is fulfilled with [v], every
    call of [getQuickJSSync], in that state and in every state that follows
    it in any run, returns that same [v]. *)
Theorem getQuickJSSync_agrees_with_getQuickJS s res v :
  reachable s -> origin_of s res = Some ByGetQuickJS ->
  state_of s res = Some (Settled (Fulfill v)) ->
  forall evs s', exec s evs = Some s' -> getQuickJSSync s' = inl v.
Proof.
  intros Hr Ho Hs evs s' Hevs. pose proof (invariant_reachable s Hr) as Hinv.
  pose proof (invariant_exec s evs s' Hinv Hevs) as Hinv'.
  pose proof (extends_exec s evs s' Hevs) as Hext.
  pose proof (getQuickJS_result_resolved s res v Hinv Ho Hs) as Hv.
  unfold getQuickJSSync.
  by rewrite (singleton_resolved s' Hinv'), (initializer_resolved_stable s s' v Hext Hv).
Qed.

(** C10: a failed first initialization is cached for good.  The first call
    of [getQuickJS] caches the promise chained on its call of
    [newQuickJSWASMModule]; once that construction is rejected with [e],
    then in every later state [singleton] is unset, [getQuickJSSync] throws
    the not-initialized error, the cached promise is still the same, no
    call of [getQuickJS] starts another construction, no promise returned by
    [getQuickJS] is ever fulfilled, and, once the microtask queue has run,
    the cached promise and every promise returned by [getQuickJS] are
    rejected with [e]. *)
Theorem failed_initialization_is_cached s p0 e :
  reachable s -> singletonPromise s = Some (S p0) ->
  state_of s p0 = Some (Settled (Reject e)) ->
  (forall s0, singletonPromise s0 = None ->
     singletonPromise (getQuickJS s0).2 = Some (S (length (heap s0)))
     /\ suspended_at (getQuickJS s0).2 (length (heap s0)) Sync AwaitingImports
     /\ has_cont (getQuickJS s0).2 (length (heap s0))
          (ThenSetSingleton (S (length (heap s0)))))
  /\ origin_of s p0 = Some (ByFactory Sync)
  /\ forall evs s', exec s evs = Some s' ->
       singleton s' = None
       /\ getQuickJSSync s' = inr not_initialized
       /\ singletonPromise s' = Some (S p0)
       /\ factory_calls Sync s' = factory_calls Sync s + direct_sync_calls evs
       /\ (forall res v, origin_of s' res = Some ByGetQuickJS ->
             state_of s' res <> Some (Settled (Fulfill v)))
       /\ (forall res, res = S p0 \/ origin_of s' res = Some ByGetQuickJS ->
             state_of (drain (pending_work s') s') res = Some (Settled (Reject e))).
Proof.
  intros Hr Hsp Hp0. pose proof (invariant_reachable s Hr) as Hinv.
  destruct (then_follows s (S p0) Hinv Hsp) as (p0' & [= <-] & Ho0 & _).
  split; [apply getQuickJS_first_call|].
  split; [done|]. intros evs s' Hevs.
  pose proof (invariant_exec s evs s' Hinv Hevs) as Hinv'.
  pose proof (extends_exec s evs s' Hevs) as Hext.
  assert (Hsp' : singletonPromise s' = Some (S p0))
    by (destruct Hext as (_ & _ & H & _); by apply H).
  assert (Hp0' : state_of s' p0 = Some (Settled (Reject e)))
    by (destruct Hext as (_ & H & _); by apply H).
  assert (Hnot : forall s2, invariant s2 -> singletonPromise s2 = Some (S p0) ->
            state_of s2 p0 = Some (Settled (Reject e)) ->
            initializer_resolved s2 = None).
  { intros s2 Hinv2 Hsp2 Hp2. destruct (initializer_resolved s2) as [v|] eqn:Hv; [|done].
    destruct (resolved_is_sync_module s2 v Hinv2 Hv) as (q & _ & _ & Hq & _ & Hqs & _).
    congruence. }
  assert (Hsing : singleton s' = None).
  { rewrite singleton_resolved by done. by apply Hnot. }
  split; [done|]. split; [by unfold getQuickJSSync; rewrite Hsing|]. split; [done|].
  split; [|split].
  - pose proof (factory_calls_exec s evs s' Hevs) as H. unfold cached in H.
    rewrite Hsp, Hsp' in H. lia.
  - intros res v Ho Hs.
    pose proof (getQuickJS_result_resolved s' res v Hinv' Ho Hs) as H.
    rewrite (Hnot s' Hinv' Hsp' Hp0') in H. done.
  - intros res Hres. set (s2 := drain (pending_work s') s').
    pose proof (drain_reachable (pending_work s') s') as [evs2 Hevs2]. fold s2 in Hevs2.
    pose proof (invariant_exec s' evs2 s2 Hinv' Hevs2) as Hinv2.
    pose proof (extends_exec s' evs2 s2 Hevs2) as Hext2.
    assert (Hq2 : microtasks s2 = []) by (apply drain_empty; lia).
    assert (Hsp2 : singletonPromise s2 = Some (S p0))
      by (destruct Hext2 as (_ & _ & H & _); by apply H).
    assert (Hp2 : state_of s2 p0 = Some (Settled (Reject e)))
      by (destruct Hext2 as (_ & H & _); by apply H).
    assert (Hp1 : state_of s2 (S p0) = Some (Settled (Reject e))).
    { destruct (then_follows s2 (S p0) Hinv2 Hsp2) as (q & [= <-] & _ & Hf).
      by apply (follows_quiescent s2 (S p0) p0 (ThenSetSingleton (S p0)) (fun w => w)
                  (Reject e)). }
    destruct Hres as [->|Ho]; [done|].
    assert (Ho2 : origin_of s2 res = Some ByGetQuickJS)
      by (destruct Hext2 as (Hor & _); by apply Hor).
    destruct (getQuickJS_result_follows s2 res Hinv2 Ho2) as (p1 & Hp1' & Hf).
    rewrite Hsp2 in Hp1'. simplify_eq.
    by apply (follows_quiescent s2 res (S p0) (AwaitInGetQuickJS res) (fun w => w)
                (Reject e)).
Qed.

End SingletonClaims.

(** ** The factories and the asynchronous entry points *)

Section FactoryClaims.
Implicit Types (s : State) (p q : nat) (r : Reaction) (st : Settlement).

Lemma factory_call v s :
  (factory v s).1 = length (heap s)
  /\ state_of (factory v s).2 (length (heap s)) = Some (Pending [])
  /\ suspended_at (factory v s).2 (length (heap s)) v AwaitingImports.
Proof.
  destruct v; (split; [done|]; split;
    [ unfold factory, newQuickJSWASMModule, newQuickJSAsyncWASMModule;
      by rewrite state_of_alloc, decide_True
    | apply suspended_alloc_new ]).
Qed.

(** C6: there are two factories, one per variant, and both are
    asynchronous: a call returns a pending promise while its body waits for
    the dynamic imports and then for the wasm module loader; when the loader
    resolves, the promise is fulfilled with a module object built from the
    loaded wasm module, of class [QuickJSWASMModule] over a [QuickJSFFI] and
    tagged ["sync"] for [newQuickJSWASMModule], of class
    [QuickJSAsyncWASMModule] over a [QuickJSAsyncFFI] and tagged ["async"]
    for [newQuickJSAsyncWASMModule]; no other step disturbs a suspended
    body, and every fulfilled factory promise of a reachable state holds
    such an object. *)
Theorem factories_return_tagged_modules :
  (forall v : Variant, v = Sync \/ v = Async)
  /\ factory Sync = newQuickJSWASMModule
  /\ factory Async = newQuickJSAsyncWASMModule
  /\ (forall v s,
        (factory v s).1 = length (heap s)
        /\ state_of (factory v s).2 (length (heap s)) = Some (Pending [])
        /\ suspended_at (factory v s).2 (length (heap s)) v AwaitingImports)
  /\ (forall v s p, suspended_at s p v AwaitingImports ->
        exists s', step s (ImportsSettle p None) = Some (s', Done)
          /\ suspended_at s' p v AwaitingLoader)
  /\ (forall v s p wasmModule, suspended_at s p v AwaitingLoader ->
        exists s', step s (LoaderSettles p (inl wasmModule)) = Some (s', Done)
          /\ state_of s' p
             = Some (Settled (Fulfill
                 (VModule (buildModule v wasmModule (modules_created s))))))
  /\ (forall v s ev s' c p sg,
        reachable s -> suspended_at s p v sg -> step s ev = Some (s', c) ->
        (forall failure, ev <> ImportsSettle p failure) ->
        (forall outcome, ev <> LoaderSettles p outcome) ->
        suspended_at s' p v sg)
  /\ (forall wasmModule id,
        let m := buildModule Sync wasmModule id in
        class m = QuickJSWASMModule /\ type (module m) = Some "sync"%string
        /\ ffi m = QuickJSFFI (module m)
        /\ instance (module m) = instance wasmModule)
  /\ (forall wasmModule id,
        let m := buildModule Async wasmModule id in
        class m = QuickJSAsyncWASMModule /\ type (module m) = Some "async"%string
        /\ ffi m = QuickJSAsyncFFI (module m)
        /\ instance (module m) = instance wasmModule)
  /\ (forall s p v val,
        reachable s -> origin_of s p = Some (ByFactory v) ->
        state_of s p = Some (Settled (Fulfill val)) ->
        exists wasmModule id, val = VModule (buildModule v wasmModule id)).
Proof.
  split; [intros []; auto|]. split; [done|]. split; [done|].
  split; [apply factory_call|].
  split; [intros v s p; apply imports_resolve|].
  split; [intros v s p wm; apply loader_resolves|]. split.
  { intros v s ev s' c p sg Hr. apply suspended_step. by apply invariant_reachable. }
  split; [done|]. split; [done|].
  intros s p v val Hr Ho Hs.
  destruct (inv_factory s (invariant_reachable s Hr) p v val Ho Hs) as (wm & id & -> & _).
  eauto.
Qed.





Lemma buildModule_inj_id v wm id v' wm' id' :
  buildModule v wm id = buildModule v' wm' id' -> id = id'.
Proof.
  intros H. apply (f_equal identity) in H. by rewrite !buildModule_identity in H.
Qed.

Lemma VModule_build_inj v wm id v' wm' id' :
  VModule (buildModule v wm id) = VModule (buildModule v' wm' id') -> id = id'.
Proof.
  intros H. apply (buildModule_inj_id v wm id v' wm' id'). congruence.
Qed.


End FactoryClaims.

(** ** The claims at the sample runs *)

Section Witnesses.

Lemma ready_reachable : reachable (run_of ready_run).
Proof. exists ready_run. vm_compute; reflexivity. Qed.

Lemma failed_reachable : reachable (run_of failed_run).
Proof. exists failed_run. vm_compute; reflexivity. Qed.

Lemma mixed_reachable : reachable (run_of mixed_run).
Proof. exists mixed_run. vm_compute; reflexivity. Qed.

Lemma getQuickJSSync_throws_until_resolved_witness :
  reachable (run_of ready_run)
  /\ getQuickJSSync (run_of ready_run)
     = match initializer_resolved (run_of ready_run) with
       | Some v => inl v
       | None => inr not_initialized
       end
  /\ (forall v, initializer_resolved (run_of ready_run) = Some v ->
        exists wasmModule id, v = VModule (buildQuickJSWASMModule wasmModule id)).
Proof.
  split; [exact ready_reachable|].
  apply (getQuickJSSync_throws_until_resolved (run_of ready_run)).
  exists ready_run. vm_compute; reflexivity.
Defined.

Lemma getQuickJS_builds_one_module_witness :
  exec initial ready_run = Some (run_of ready_run)
  /\ factory_calls Sync (run_of ready_run)
     = direct_sync_calls ready_run + cached (run_of ready_run)
  /\ cached (run_of ready_run) <= 1.
Proof.
  split; [vm_compute; reflexivity|].
  destruct (getQuickJS_builds_one_module ready_run (run_of ready_run))
    as (_ & _ & Hcalls & Hcached & _); [vm_compute; reflexivity|].
  split; [exact Hcalls|exact Hcached].
Defined.

Lemma getQuickJSSync_agrees_with_getQuickJS_witness :
  origin_of (run_of ready_run) 2 = Some ByGetQuickJS
  /\ state_of (run_of ready_run) 2
     = Some (Settled (Fulfill (VModule (buildQuickJSWASMModule wasm0 0))))
  /\ forall evs s', exec (run_of ready_run) evs = Some s' ->
       getQuickJSSync s' = inl (VModule (buildQuickJSWASMModule wasm0 0)).
Proof.
  split; [vm_compute; reflexivity|]. split; [vm_compute; reflexivity|].
  apply (getQuickJSSync_agrees_with_getQuickJS (run_of ready_run) 2
           (VModule (buildQuickJSWASMModule wasm0 0))).
  - exists ready_run. vm_compute; reflexivity.
  - vm_compute; reflexivity.
  - vm_compute; reflexivity.
Defined.

Lemma failed_initialization_is_cached_witness :
  reachable (run_of failed_run)
  /\ singletonPromise (run_of failed_run) = Some 1
  /\ state_of (run_of failed_run) 0 = Some (Settled (Reject boom))
  /\ origin_of (run_of failed_run) 0 = Some (ByFactory Sync)
  /\ forall evs s', exec (run_of failed_run) evs = Some s' ->
       singleton s' = None
       /\ getQuickJSSync s' = inr not_initialized
       /\ singletonPromise s' = Some 1
       /\ factory_calls Sync s'
          = factory_calls Sync (run_of failed_run) + direct_sync_calls evs
       /\ (forall res v, origin_of s' res = Some ByGetQuickJS ->
             state_of s' res <> Some (Settled (Fulfill v)))
       /\ (forall res, res = 1 \/ origin_of s' res = Some ByGetQuickJS ->
             state_of (drain (pending_work s') s') res
             = Some (Settled (Reject boom))).
Proof.
  split; [exact failed_reachable|].
  split; [vm_compute; reflexivity|]. split; [vm_compute; reflexivity|].
  destruct (failed_initialization_is_cached (run_of failed_run) 0 boom)
    as (_ & Horigin & Hlater).
  - exists failed_run. vm_compute; reflexivity.
  - vm_compute; reflexivity.
  - vm_compute; reflexivity.
  - split; [exact Horigin|exact Hlater].
Defined.

Lemma factories_return_tagged_modules_witness :
  reachable (run_of mixed_run)
  /\ origin_of (run_of mixed_run) 3 = Some (ByFactory Async)
  /\ exists wasmModule id,
       VModule (buildQuickJSAsyncWASMModule wasm1 2)
       = VModule (buildModule Async wasmModule id).
Proof.
  split; [exact mixed_reachable|]. split; [vm_compute; reflexivity|].
  destruct factories_return_tagged_modules
    as (_ & _ & _ & _ & _ & _ & _ & _ & _ & Hsafe).
  apply (Hsafe (run_of mixed_run) 3 Async).
  - exists mixed_run. vm_compute; reflexivity.
  - vm_compute; reflexivity.
  - vm_compute; reflexivity.
Defined.


End Witnesses.

(** ** What the other functions never do *)

Section Isolation.
Implicit Types (s : State) (p q : nat).

Lemma singletonPromise_step_other s ev s' c :
  step s ev = Some (s', c) -> getQuickJS_call ev = 0 ->
  singletonPromise s' = singletonPromise s.
Proof.
  intros Hstep Hev. pose proof (extends_step s ev s' c Hstep) as (_ & _ & Hsp & _).
  destruct (singletonPromise s) as [p1|] eqn:Hp1; [by apply Hsp|].
  pose proof (cached_step s ev s' c Hstep) as H. unfold cached in H. rewrite Hp1 in H.
  destruct (singletonPromise s'); [|done].
  destruct ev; simpl in *; lia.
Qed.

Lemma singletonPromise_exec_other s evs s' :
  exec s evs = Some s' -> getQuickJS_calls evs = 0 ->
  singletonPromise s' = singletonPromise s.
Proof.
  revert s. induction evs as [|ev evs IH]; intros s; simpl.
  - by intros [= <-].
  - destruct (step s ev) as [[s1 c]|] eqn:E; [|done]. intros H Hc.
    unfold getQuickJS_calls in *. simpl in Hc.
    rewrite (IH s1 H) by lia. eapply singletonPromise_step_other; [done|lia].
Qed.

(** The shared module is initialized by [getQuickJS] alone: in a run without
    a call of [getQuickJS], whatever modules, runtimes and contexts are
    built through the other functions, nothing is cached and
    [getQuickJSSync] throws the not-initialized error. *)
Theorem singleton_needs_getQuickJS (evs : list Event) s :
  exec initial evs = Some s -> getQuickJS_calls evs = 0 ->
  singletonPromise s = None /\ singleton s = None
  /\ getQuickJSSync s = inr not_initialized.
Proof.
  intros Hexec Hcalls.
  pose proof (singletonPromise_exec_other initial evs s Hexec Hcalls) as Hsp.
  assert (Hinv : invariant s) by (apply invariant_reachable; by exists evs).
  assert (Hsing : singleton s = None).
  { rewrite (singleton_resolved s Hinv). unfold initializer_resolved. by rewrite Hsp. }
  split; [done|]. split; [done|]. unfold getQuickJSSync. by rewrite Hsing.
Qed.

Lemma async_calls_step s ev s' c :
  step s ev = Some (s', c) ->
  factory_calls Async s' = factory_calls Async s + async_call ev.
Proof.
  intros H. rewrite (factory_calls_step Async s ev s' c H). by destruct ev.
Qed.

(** Over any run, the asyncified build is loaded once per call of
    [newQuickJSAsyncWASMModule], [newAsyncRuntime] or [newAsyncContext], and
    never by [getQuickJS], [getQuickJSSync] or [newQuickJSWASMModule]. *)
Theorem asyncify_build_loaded_by_async_calls_only (evs : list Event) s :
  exec initial evs = Some s -> factory_calls Async s = async_calls evs.
Proof.
  assert (forall s0 s1, exec s0 evs = Some s1 ->
            factory_calls Async s1 = factory_calls Async s0 + async_calls evs) as H.
  { induction evs as [|ev evs IH]; intros s0 s1; simpl.
    - intros [= <-]. unfold async_calls. simpl. lia.
    - destruct (step s0 ev) as [[s2 c]|] eqn:E; [|done]. intros H.
      rewrite (IH s2 s1 H), (async_calls_step s0 ev s2 c E).
      unfold async_calls. simpl. lia. }
  intros Hexec. by rewrite (H initial s Hexec).
Qed.

End Isolation.

(** ** Failing and separate factory calls *)

Section Failure.
Implicit Types (s : State) (p q : nat).

(** When the imports or the loader of a factory call fail with [e], the
    promise of that call is rejected with [e] and stays so, no module object
    is built, and [singleton] and [singletonPromise] are left alone. *)
Theorem factory_failure_rejects s p v sg e :
  suspended_at s p v sg ->
  exists s', step s (failure_event p sg e) = Some (s', Done)
    /\ state_of s' p = Some (Settled (Reject e))
    /\ modules_created s' = modules_created s
    /\ singleton s' = singleton s
    /\ singletonPromise s' = singletonPromise s
    /\ forall evs s'', exec s' evs = Some s'' ->
         state_of s'' p = Some (Settled (Reject e)).
Proof.
  intros Hs.
  assert (exists s', step s (failure_event p sg e) = Some (s', Done)
            /\ s' = settle p (Reject e) s) as (s' & Hstep & Heq).
  { destruct Hs as (c & rs & Hp & Ho & Hsg & Hst).
    destruct sg; simpl; unfold resumeAfterImports, resumeAfterLoader;
      rewrite Hp, Ho, Hsg, Hst; simpl; eauto. }
  destruct (suspended_pending s p v sg Hs) as [rs Hrs].
  assert (Hrej : state_of s' p = Some (Settled (Reject e))).
  { subst s'. by rewrite state_of_settle, Hrs, decide_True. }
  exists s'. split; [done|]. split; [done|].
  destruct (fields_settle p (Reject e) s) as (E1 & E2 & E3 & _). subst s'.
  split; [done|]. split; [done|]. split; [done|].
  intros evs s'' Hevs. destruct (extends_exec _ evs s'' Hevs) as (_ & Hst & _).
  by apply Hst.
Qed.

(** Two different factory calls, of either variant, never resolve to the
    same module object. *)
Theorem factory_modules_are_distinct s p q v v' m m' :
  reachable s ->
  origin_of s p = Some (ByFactory v) ->
  state_of s p = Some (Settled (Fulfill (VModule m))) ->
  origin_of s q = Some (ByFactory v') ->
  state_of s q = Some (Settled (Fulfill (VModule m'))) ->
  p <> q -> identity m <> identity m'.
Proof.
  intros Hr Hop Hsp Hoq Hsq Hne Hid.
  pose proof (invariant_reachable s Hr) as Hinv.
  destruct (inv_factory s Hinv p v _ Hop Hsp) as (wm & id & [= ->] & _ & Hu).
  destruct (inv_factory s Hinv q v' _ Hoq Hsq) as (wm' & id' & [= ->] & _ & _).
  rewrite !buildModule_identity in Hid. subst id'.
  apply Hne. symmetry. by apply (Hu q v' wm').
Qed.

(** The object in [singleton] is the one built by the factory call that
    [getQuickJS] made itself; no other factory call, direct or through
    [newAsyncRuntime] or [newAsyncContext], ever resolves to it. *)
Theorem singleton_is_not_a_direct_module s vs :
  reachable s -> singleton s = Some vs ->
  exists p0,
    singletonPromise s = Some (S p0)
    /\ origin_of s p0 = Some (ByFactory Sync)
    /\ state_of s p0 = Some (Settled (Fulfill vs))
    /\ forall p v val,
         origin_of s p = Some (ByFactory v) ->
         state_of s p = Some (Settled (Fulfill val)) ->
         p <> p0 -> val <> vs.
Proof.
  intros Hr Hsing. pose proof (invariant_reachable s Hr) as Hinv.
  rewrite (singleton_resolved s Hinv) in Hsing.
  destruct (resolved_is_sync_module s vs Hinv Hsing)
    as (p0 & wm & id & Hsp & Ho0 & Hs0 & ->).
  exists p0. split; [done|]. split; [done|]. split; [done|].
  intros p v val Hop Hst Hne ->.
  destruct (inv_factory s Hinv p v _ Hop Hst) as (wm' & id' & Heq & _ & Hu).
  apply (VModule_build_inj Sync _ _ v) in Heq. subst id'.
  apply Hne. symmetry. by apply (Hu p0 Sync wm).
Qed.

End Failure.

(** ** Calls that succeed *)

Section Progress.
Implicit Types (s : State) (p q : nat).


Lemma microtasks_chain p o k s :
  is_Some (state_of s p) ->
  microtasks (chain p o k s).2
  = match state_of s p with
    | Some (Settled st) =>
        microtasks s ++
          [{| job_source := p; job_reaction := k (length (heap s));
              job_settlement := st |}]
    | _ => microtasks s
    end.
Proof.
  intros [x Hx]. pose proof (state_of_lt _ _ _ Hx) as Hlt.
  rewrite chain_snd, microtasks_subscribe, state_of_alloc.
  by rewrite decide_False by lia.
Qed.

Lemma getQuickJS_pending s :
  invariant s ->
  state_of (getQuickJS s).2 (getQuickJS s).1 = Some (Pending []).
Proof.
  intros Hinv. destruct (singletonPromise s) as [p1|] eqn:Hp1.
  - destruct (singletonPromise_state s p1 (inv_singleton s Hinv) Hp1) as [_ Hs].
    rewrite (getQuickJS_some s p1 Hp1), chain_fst. by apply state_of_chain_new.
  - rewrite (getQuickJS_none s Hp1). cbv zeta. rewrite chain_fst.
    apply state_of_chain_new.
    change (state_of (set_singletonPromise ?d ?s0)) with (state_of s0).
    rewrite state_of_chain_new; [by eexists|].
    unfold newQuickJSWASMModule. rewrite state_of_alloc, decide_True by done.
    by eexists.
Qed.

(** [getQuickJS] never answers synchronously: the promise it returns is
    pending when the call returns.  Once the initializer has resolved and the
    queue is empty, [getQuickJSSync] has the value at once, and the promise
    of [getQuickJS] is fulfilled with that same value by the one job the call
    queued, which leaves the queue empty. *)
Theorem getQuickJS_answers_in_one_job s :
  reachable s ->
  state_of (getQuickJS s).2 (getQuickJS s).1 = Some (Pending [])
  /\ forall v, initializer_resolved s = Some v -> microtasks s = [] ->
       getQuickJSSync (getQuickJS s).2 = inl v
       /\ exists s2, step (getQuickJS s).2 RunMicrotask = Some (s2, Done)
            /\ state_of s2 (getQuickJS s).1 = Some (Settled (Fulfill v))
            /\ microtasks s2 = [].
Proof.
  intros Hr. pose proof (invariant_reachable s Hr) as Hinv.
  split; [by apply getQuickJS_pending|]. intros v Hv Hq.
  pose proof (getQuickJS_pending s Hinv) as Hpend.
  unfold initializer_resolved in Hv.
  destruct (singletonPromise s) as [p1|] eqn:Hp1; [|done].
  destruct (state_of s p1) as [[rs|[w|e]]|] eqn:Hs1; try done. simplify_eq.
  rewrite (getQuickJS_some s p1 Hp1) in *. rewrite chain_fst in *.
  set (s1 := (chain p1 ByGetQuickJS AwaitInGetQuickJS s).2) in *.
  destruct (fields_chain p1 ByGetQuickJS AwaitInGetQuickJS s) as (E1 & _). fold s1 in E1.
  assert (Hq1 : microtasks s1
                = [{| job_source := p1; job_reaction := AwaitInGetQuickJS (length (heap s));
                      job_settlement := Fulfill v |}]).
  { unfold s1. rewrite microtasks_chain by (by eexists). by rewrite Hs1, Hq. }
  split.
  - unfold getQuickJSSync. rewrite E1, (singleton_resolved s Hinv).
    unfold initializer_resolved. by rewrite Hp1, Hs1.
  - eexists. split; [unfold step; by rewrite Hq1|]. simpl.
    rewrite state_of_settle, microtasks_settle.
    change (state_of (set_microtasks ?q ?s0)) with (state_of s0).
    by rewrite Hpend, decide_True.
Qed.








End Progress.

(** ** The further properties at the sample runs *)

Section MoreWitnesses.

Lemma singleton_needs_getQuickJS_witness :
  exec initial direct_run = Some (run_of direct_run)
  /\ getQuickJS_calls direct_run = 0
  /\ singletonPromise (run_of direct_run) = None
  /\ singleton (run_of direct_run) = None
  /\ getQuickJSSync (run_of direct_run) = inr not_initialized.
Proof.
  split; [vm_compute; reflexivity|]. split; [vm_compute; reflexivity|].
  apply (singleton_needs_getQuickJS direct_run (run_of direct_run)).
  - vm_compute; reflexivity.
  - vm_compute; reflexivity.
Defined.

Lemma asyncify_build_loaded_by_async_calls_only_witness :
  exec initial mixed_run = Some (run_of mixed_run)
  /\ factory_calls Async (run_of mixed_run) = async_calls mixed_run.
Proof.
  split; [vm_compute; reflexivity|].
  apply (asyncify_build_loaded_by_async_calls_only mixed_run (run_of mixed_run)).
  vm_compute; reflexivity.
Defined.

Lemma factory_failure_rejects_witness :
  suspended_at (run_of loading_run) 0 Async AwaitingImports
  /\ exists s', step (run_of loading_run) (failure_event 0 AwaitingImports boom)
                = Some (s', Done)
       /\ state_of s' 0 = Some (Settled (Reject boom))
       /\ modules_created s' = modules_created (run_of loading_run)
       /\ singleton s' = singleton (run_of loading_run)
       /\ singletonPromise s' = singletonPromise (run_of loading_run)
       /\ forall evs s'', exec s' evs = Some s'' ->
            state_of s'' 0 = Some (Settled (Reject boom)).
Proof.
  assert (Hs : suspended_at (run_of loading_run) 0 Async AwaitingImports).
  { exists {| origin := ByFactory Async; stage := Some AwaitingImports;
              state := Pending [] |}, [].
    vm_compute. repeat split; reflexivity. }
  split; [exact Hs|].
  exact (factory_failure_rejects (run_of loading_run) 0 Async AwaitingImports boom Hs).
Defined.

Lemma factory_modules_are_distinct_witness :
  reachable (run_of mixed_run)
  /\ identity (buildQuickJSAsyncWASMModule wasm1 2)
     <> identity (buildQuickJSAsyncWASMModule wasm1 0).
Proof.
  split; [exists mixed_run; vm_compute; reflexivity|].
  apply (factory_modules_are_distinct (run_of mixed_run) 3 5 Async Async
           (buildQuickJSAsyncWASMModule wasm1 2) (buildQuickJSAsyncWASMModule wasm1 0)).
  - exists mixed_run. vm_compute; reflexivity.
  - vm_compute; reflexivity.
  - vm_compute; reflexivity.
  - vm_compute; reflexivity.
  - vm_compute; reflexivity.
  - lia.
Defined.

Lemma singleton_is_not_a_direct_module_witness :
  singleton (run_of mixed_run) = Some (VModule (buildQuickJSWASMModule wasm0 1))
  /\ exists p0,
       singletonPromise (run_of mixed_run) = Some (S p0)
       /\ origin_of (run_of mixed_run) p0 = Some (ByFactory Sync)
       /\ state_of (run_of mixed_run) p0
          = Some (Settled (Fulfill (VModule (buildQuickJSWASMModule wasm0 1))))
       /\ forall p v val,
            origin_of (run_of mixed_run) p = Some (ByFactory v) ->
            state_of (run_of mixed_run) p = Some (Settled (Fulfill val)) ->
            p <> p0 -> val <> VModule (buildQuickJSWASMModule wasm0 1).
Proof.
  split; [vm_compute; reflexivity|].
  apply (singleton_is_not_a_direct_module (run_of mixed_run)
           (VModule (buildQuickJSWASMModule wasm0 1))).
  - exists mixed_run. vm_compute; reflexivity.
  - vm_compute; reflexivity.
Defined.

Lemma getQuickJS_answers_in_one_job_witness :
  reachable (run_of ready_run)
  /\ state_of (getQuickJS (run_of ready_run)).2 (getQuickJS (run_of ready_run)).1
     = Some (Pending [])
  /\ getQuickJSSync (getQuickJS (run_of ready_run)).2
     = inl (VModule (buildQuickJSWASMModule wasm0 0))
  /\ exists s2,
       step (getQuickJS (run_of ready_run)).2 RunMicrotask = Some (s2, Done)
       /\ state_of s2 (getQuickJS (run_of ready_run)).1
          = Some (Settled (Fulfill (VModule (buildQuickJSWASMModule wasm0 0))))
       /\ microtasks s2 = [].
Proof.
  split; [exists ready_run; vm_compute; reflexivity|].
  destruct (getQuickJS_answers_in_one_job (run_of ready_run)) as [Hpending Hlater].
  - exists ready_run. vm_compute; reflexivity.
  - split; [exact Hpending|].
    apply (Hlater (VModule (buildQuickJSWASMModule wasm0 0))).
    + vm_compute; reflexivity.
    + vm_compute; reflexivity.
Defined.



End MoreWitnesses.

End ProcessFacts.
